(** * MqxCode: feature queue, output redaction and task allow-list

    A shallow embedding of

    - [mcp_server/feature_mcp.py]   (the feature store and its state machine),
    - [server/services/agent_pool_manager.py]  (secret redaction of agent output),
    - [server/routers/server_tasks.py]  (command validation against the allow-list),

    followed by the properties of the specification that concern them.

    Conventions.  A Python [str] is a [string]; each [ascii] stands for one
    code point, so the development covers text whose code points are below
    256.  A reading of [time.time()] is an integer number of microseconds.
    The SQL table [features] is a finite map from the primary key [id] to the
    remaining columns; [status_change_log] is the list of its rows, oldest
    first. *)

From Stdlib Require Import ZArith NArith Ascii String List Lia.
From stdpp Require Import base tactics option list gmap strings pretty.

Local Open Scope Z_scope.

(* ===================================================================== *)
(** * Python text primitives *)
(* ===================================================================== *)

Module Text.

Definition chars (s : string) : list ascii := list_ascii_of_string s.
Definition text (l : list ascii) : string := string_of_list_ascii l.

(** [str.isspace] on one code point, which is also the class [\s] of [re]
    for [str] patterns: U+0009..U+000D, U+001C..U+0020, U+0085, U+00A0. *)
Definition isspace (c : ascii) : bool :=
  let n := N_of_ascii c in
  (((9 <=? n) && (n <=? 13)) || ((28 <=? n) && (n <=? 32))
   || (n =? 133) || (n =? 160))%N.

Fixpoint lstrip_chars (l : list ascii) : list ascii :=
  match l with
  | c :: l' => if isspace c then lstrip_chars l' else l
  | [] => []
  end.

Definition rstrip_chars (l : list ascii) : list ascii :=
  rev (lstrip_chars (rev l)).

Definition strip_chars (l : list ascii) : list ascii :=
  lstrip_chars (rstrip_chars l).

(** [s.rstrip()] and [s.strip()] *)
Definition rstrip (s : string) : string := text (rstrip_chars (chars s)).
Definition strip (s : string) : string := text (strip_chars (chars s)).

(** [len(s)] *)
Definition len (s : string) : Z := Z.of_nat (String.length s).

(** [s[-n:]] for a positive literal [n] *)
Definition last_chars (n : nat) (l : list ascii) : list ascii :=
  drop (length l - n) l.
Definition suffix_slice (n : nat) (s : string) : string :=
  text (last_chars n (chars s)).

(** [s.startswith(p)] *)
Fixpoint startswith_chars (p l : list ascii) : bool :=
  match p, l with
  | [], _ => true
  | a :: p', b :: l' => if Ascii.eqb a b then startswith_chars p' l' else false
  | _ :: _, [] => false
  end.
Definition startswith (s p : string) : bool :=
  startswith_chars (chars p) (chars s).

(** [needle in s] *)
Fixpoint contains_chars (needle l : list ascii) : bool :=
  startswith_chars needle l
  || match l with
     | [] => false
     | _ :: l' => contains_chars needle l'
     end.
Definition contains (s needle : string) : bool :=
  contains_chars (chars needle) (chars s).

(** Number of bytes of a code point below 256 in UTF-8. *)
Definition utf8_width (c : ascii) : nat :=
  if (N_of_ascii c <? 128)%N then 1%nat else 2%nat.
Definition utf8_len (s : string) : nat :=
  foldr (fun c n => (utf8_width c + n)%nat) 0%nat (chars s).

(** Text made of ASCII characters only, one byte each. *)
Definition is_ascii (s : string) : bool :=
  forallb (fun c => (N_of_ascii c <? 128)%N) (chars s).

(** ASCII lower-casing: on code points below 256 the letters of the patterns
    used here have no other case variants. *)
Definition lower (c : ascii) : ascii :=
  let n := N_of_ascii c in
  if ((65 <=? n) && (n <=? 90))%N then ascii_of_N (n + 32) else c.

Definition isalnum_ascii (c : ascii) : bool :=
  let n := N_of_ascii c in
  (((48 <=? n) && (n <=? 57)) || ((65 <=? n) && (n <=? 90))
   || ((97 <=? n) && (n <=? 122)))%N.

End Text.

(* ===================================================================== *)
(** * The fragment of [re] used by the sources *)
(* ===================================================================== *)

Module Re.
Import Text.

(** Character classes: a literal character, [[a-zA-Z0-9]], [\s], [[^\s]],
    and an explicit set such as [[_-]]. *)
Inductive cclass : Type :=
| Char (c : ascii)
| Alnum
| Space
| NonSpace
| OneOf (cs : list ascii).

(** Pattern items: [k], [k?], [k{lo,}] (greedy) and an alternation of
    literal strings [(?:a|b|...)].  A pattern is a sequence of items. *)
Inductive atom : Type :=
| One (k : cclass)
| Opt (k : cclass)
| Rep (k : cclass) (lo : nat)
| Alt (alts : list (list ascii)).

Definition pattern := list atom.

Definition char_eq (ignorecase : bool) (a b : ascii) : bool :=
  if ignorecase then Ascii.eqb (lower a) (lower b) else Ascii.eqb a b.

Definition in_class (ignorecase : bool) (k : cclass) (x : ascii) : bool :=
  match k with
  | Char c => char_eq ignorecase c x
  | Alnum => isalnum_ascii x
  | Space => isspace x
  | NonSpace => negb (isspace x)
  | OneOf cs => existsb (fun c => char_eq ignorecase c x) cs
  end.

(** Length of the longest prefix of [s] made of characters of class [k]. *)
Fixpoint span (ignorecase : bool) (k : cclass) (s : list ascii) : nat :=
  match s with
  | x :: s' => if in_class ignorecase k x then S (span ignorecase k s') else O
  | [] => O
  end.

Fixpoint strip_literal (ignorecase : bool) (lit s : list ascii)
  : option (list ascii) :=
  match lit, s with
  | [], _ => Some s
  | a :: lit', x :: s' =>
      if char_eq ignorecase a x then strip_literal ignorecase lit' s' else None
  | _ :: _, [] => None
  end.

Fixpoint first_some {A B : Type} (f : A -> option B) (l : list A) : option B :=
  match l with
  | [] => None
  | a :: l' => match f a with Some b => Some b | None => first_some f l' end
  end.

(** Repetition counts tried by a greedy [k{lo,}] that can take at most
    [hi] characters: [hi, hi-1, ..., lo]. *)
Definition greedy_counts (lo hi : nat) : list nat :=
  rev (seq lo (S hi - lo)).

(** Backtracking match of [p] at the head of [s]; the result is what is
    left of [s] after the match the engine finds first. *)
Fixpoint match_here (ignorecase : bool) (p : pattern) (s : list ascii)
  : option (list ascii) :=
  match p with
  | [] => Some s
  | One k :: p' =>
      match s with
      | x :: s' =>
          if in_class ignorecase k x then match_here ignorecase p' s' else None
      | [] => None
      end
  | Opt k :: p' =>
      match s with
      | x :: s' =>
          if in_class ignorecase k x then
            match match_here ignorecase p' s' with
            | Some r => Some r
            | None => match_here ignorecase p' s
            end
          else match_here ignorecase p' s
      | [] => match_here ignorecase p' s
      end
  | Rep k lo :: p' =>
      first_some (fun n => match_here ignorecase p' (drop n s))
                 (greedy_counts lo (span ignorecase k s))
  | Alt alts :: p' =>
      first_some (fun a => match strip_literal ignorecase a s with
                           | Some r => match_here ignorecase p' r
                           | None => None
                           end) alts
  end.

(** [re.sub(p, repl, s)]: leftmost non-overlapping matches are replaced.
    [skip] counts the characters of the current match still to be passed
    over.  The patterns of the sources never match the empty string; an
    empty match is treated as no match. *)
Fixpoint sub_from (ignorecase : bool) (p : pattern) (repl : list ascii)
         (skip : nat) (s : list ascii) : list ascii :=
  match s with
  | [] => []
  | x :: s' =>
      match skip with
      | S k => sub_from ignorecase p repl k s'
      | O =>
          match match_here ignorecase p s with
          | Some rest =>
              match (length s - length rest)%nat with
              | S k => repl ++ sub_from ignorecase p repl k s'
              | O => x :: sub_from ignorecase p repl O s'
              end
          | None => x :: sub_from ignorecase p repl O s'
          end
      end
  end.

Definition sub (ignorecase : bool) (p : pattern) (repl s : list ascii)
  : list ascii :=
  sub_from ignorecase p repl O s.

(** [re.split(p, s)]: the pieces of [s] between the leftmost
    non-overlapping matches; [cur] is the current piece, reversed. *)
Fixpoint split_from (ignorecase : bool) (p : pattern) (skip : nat)
         (cur : list ascii) (s : list ascii) : list (list ascii) :=
  match s with
  | [] => [rev cur]
  | x :: s' =>
      match skip with
      | S k => split_from ignorecase p k cur s'
      | O =>
          match match_here ignorecase p s with
          | Some rest =>
              match (length s - length rest)%nat with
              | S k => rev cur :: split_from ignorecase p k [] s'
              | O => split_from ignorecase p O (x :: cur) s'
              end
          | None => split_from ignorecase p O (x :: cur) s'
          end
      end
  end.

Definition split (ignorecase : bool) (p : pattern) (s : list ascii)
  : list (list ascii) :=
  split_from ignorecase p O [] s.

(** Patterns that cannot match across white space: no item accepts a
    white-space character. *)
Definition class_rejects_space (k : cclass) : bool :=
  match k with
  | Char c => negb (isspace c)
  | Alnum => true
  | Space => false
  | NonSpace => true
  | OneOf cs => forallb (fun c => negb (isspace c)) cs
  end.

Definition atom_rejects_space (a : atom) : bool :=
  match a with
  | One k | Opt k | Rep k _ => class_rejects_space k
  | Alt alts => forallb (forallb (fun c => negb (isspace c))) alts
  end.

(** A pattern that starts with a mandatory character matches no empty
    string. *)
Definition starts_with_one (p : pattern) : bool :=
  match p with One _ :: _ => true | _ => false end.

Definition word_pattern (p : pattern) : bool :=
  starts_with_one p && forallb atom_rejects_space p.

Definition lit (s : string) : pattern := map (fun c => One (Char c)) (chars s).

End Re.

(* ===================================================================== *)
(** * server/services/agent_pool_manager.py: redaction of agent output *)
(* ===================================================================== *)

Module AgentPoolManager.
Import Text Re.

Definition set_ (s : string) : cclass := OneOf (chars s).

(** [SENSITIVE_PATTERNS], item by item; each is applied with
    [re.IGNORECASE]. *)
Definition SENSITIVE_PATTERNS : list pattern :=
  [ (* sk-[a-zA-Z0-9]{20,} *)
    lit "sk-" ++ [Rep Alnum 20]
  ; (* ANTHROPIC_API_KEY=[^\s]+ *)
    lit "ANTHROPIC_API_KEY=" ++ [Rep NonSpace 1]
  ; (* api[_-]?key[=:][^\s]+ *)
    lit "api" ++ [Opt (set_ "_-")] ++ lit "key"
      ++ [One (set_ "=:"); Rep NonSpace 1]
  ; (* token[=:][^\s]+ *)
    lit "token" ++ [One (set_ "=:"); Rep NonSpace 1]
  ; (* password[=:][^\s]+ *)
    lit "password" ++ [One (set_ "=:"); Rep NonSpace 1]
  ; (* secret[=:][^\s]+ *)
    lit "secret" ++ [One (set_ "=:"); Rep NonSpace 1]
  ; (* ghp_[a-zA-Z0-9]{36,} and its three siblings *)
    lit "ghp_" ++ [Rep Alnum 36]
  ; lit "gho_" ++ [Rep Alnum 36]
  ; lit "ghs_" ++ [Rep Alnum 36]
  ; lit "ghr_" ++ [Rep Alnum 36]
  ; (* aws[_-]?access[_-]?key[=:][^\s]+ *)
    lit "aws" ++ [Opt (set_ "_-")] ++ lit "access" ++ [Opt (set_ "_-")]
      ++ lit "key" ++ [One (set_ "=:"); Rep NonSpace 1]
  ; (* aws[_-]?secret[=:][^\s]+ *)
    lit "aws" ++ [Opt (set_ "_-")] ++ lit "secret"
      ++ [One (set_ "=:"); Rep NonSpace 1] ].

Definition REDACTED : list ascii := chars "[REDACTED]".

(** The loop of [sanitize_output] on the characters of the line. *)
Definition sanitize_chars (line : list ascii) : list ascii :=
  fold_left (fun line pattern => sub true pattern REDACTED line)
            SENSITIVE_PATTERNS line.

Definition sanitize_output (line : string) : string :=
  text (sanitize_chars (chars line)).

(** ** Vocabulary of the properties *)

Definition SECRET : string := "ANTHROPIC_API_KEY=abc123".

(** The text before a word is empty or ends with white space; the text
    after it is empty or starts with white space. *)
Definition ends_at_boundary (before : string) : bool :=
  match rev (chars before) with
  | [] => true
  | c :: _ => isspace c
  end.

Definition starts_at_boundary (after : string) : bool :=
  match chars after with
  | [] => true
  | c :: _ => isspace c
  end.

(** ** [AgentInstance._stream_output]

    [is_auth_error] and [AUTH_ERROR_HELP] come from the module [auth],
    which lives outside the files modelled here: they are parameters.
    The observable effect of the loop is the sequence of lines handed to
    [_broadcast_output]; the [finally] block, which settles the status of
    the agent once the stream is closed, broadcasts no sanitized line. *)
Section Stream.
Variable is_auth_error : string -> bool.
Variable AUTH_ERROR_HELP : list string.

Record stream_state : Type := {
  auth_error_detected : bool;
  output_buffer : list string
}.

Definition stream_init : stream_state :=
  {| auth_error_detected := false; output_buffer := [] |}.

(** One iteration of the [while True] loop on a decoded line; returns
    the lines broadcast, in order, and the loop state. *)
Definition stream_line (st : stream_state) (line : string)
  : list string * stream_state :=
  let decoded := rstrip line in
  let sanitized := sanitize_output decoded in
  let buffer := output_buffer st ++ [decoded] in
  let buffer := if (20 <? length buffer)%nat then drop 1 buffer else buffer in
  if negb (auth_error_detected st) && is_auth_error decoded then
    (AUTH_ERROR_HELP ++ [sanitized],
     {| auth_error_detected := true; output_buffer := buffer |})
  else
    ([sanitized],
     {| auth_error_detected := auth_error_detected st;
        output_buffer := buffer |}).

Fixpoint stream_lines (st : stream_state) (lines : list string)
  : list string * stream_state :=
  match lines with
  | [] => ([], st)
  | line :: rest =>
      let '(out, st') := stream_line st line in
      let '(outs, st'') := stream_lines st' rest in
      (out ++ outs, st'')
  end.
End Stream.

End AgentPoolManager.

(* ===================================================================== *)
(** * server/routers/server_tasks.py: command validation *)
(* ===================================================================== *)

(** Python's standard [shlex.split(s)], i.e. [list(shlex(s, posix=True))]
    with [whitespace_split = True] and no comment characters, transcribed
    from the state machine of [shlex.read_token].  [None] stands for the
    [ValueError] raised on an unclosed quotation or a dangling escape.  The
    validation functions below take the tokenizer as a parameter; this one
    instantiates it in the examples. *)
Module Shlex.
Import Text.

Inductive escaped_from : Type := FromWord | FromQuote (q : ascii).

Inductive lex_state : Type :=
| InWhitespace                       (* state ' ' *)
| InWord                             (* state 'a' *)
| InQuote (q : ascii)                (* state in quotes *)
| InEscape (back : escaped_from).    (* state in escape *)

Definition is_whitespace (c : ascii) : bool :=
  existsb (Ascii.eqb c) [" "; "009"; "013"; "010"]%char.
Definition is_quote (c : ascii) : bool :=
  existsb (Ascii.eqb c) ["039"; "034"]%char.
Definition is_escape (c : ascii) : bool := Ascii.eqb c "092"%char.
Definition is_escapedquote (q : ascii) : bool := Ascii.eqb q "034"%char.

Definition has_token (token : list ascii) (quoted : bool) : bool :=
  match token with [] => quoted | _ :: _ => true end.

(** [token] is the current token, reversed. *)
Fixpoint tokens_from (state : lex_state) (quoted : bool) (token : list ascii)
         (s : list ascii) : option (list string) :=
  match s with
  | [] =>
      match state with
      | InWhitespace | InWord =>
          Some (if has_token token quoted then [text (rev token)] else [])
      | InQuote _ => None        (* No closing quotation *)
      | InEscape _ => None       (* No escaped character *)
      end
  | c :: s' =>
      match state with
      | InWhitespace =>
          if is_whitespace c then
            if has_token token quoted
            then cons (text (rev token)) <$> tokens_from InWhitespace false [] s'
            else tokens_from InWhitespace quoted token s'
          else if is_escape c then tokens_from (InEscape FromWord) quoted token s'
          else if is_quote c then tokens_from (InQuote c) quoted token s'
          else tokens_from InWord quoted [c] s'
      | InQuote q =>
          if Ascii.eqb c q then tokens_from InWord true token s'
          else if is_escape c && is_escapedquote q
          then tokens_from (InEscape (FromQuote q)) true token s'
          else tokens_from (InQuote q) true (c :: token) s'
      | InEscape back =>
          match back with
          | FromQuote q =>
              let token :=
                if negb (is_escape c) && negb (Ascii.eqb c q)
                then "092"%char :: token else token in
              tokens_from (InQuote q) quoted (c :: token) s'
          | FromWord => tokens_from InWord quoted (c :: token) s'
          end
      | InWord =>
          if is_whitespace c then
            if has_token token quoted
            then cons (text (rev token)) <$> tokens_from InWhitespace false [] s'
            else tokens_from InWhitespace quoted token s'
          else if is_quote c then tokens_from (InQuote c) quoted token s'
          else if is_escape c then tokens_from (InEscape FromWord) quoted token s'
          else tokens_from InWord quoted (c :: token) s'
      end
  end.

Definition split (s : string) : option (list string) :=
  tokens_from InWhitespace false [] (chars s).
End Shlex.

Module ServerTasks.
Import Text Re.

Definition ALLOWED_TASK_COMMANDS : list string :=
  [ "git"; "npm"; "npx"; "pnpm"; "node";
    "python"; "python3"; "pip"; "pip3"; "ruff"; "mypy"; "pytest";
    "ls"; "cat"; "head"; "tail"; "wc"; "grep"; "find";
    "pwd"; "echo" ].

Definition allowed (cmd : string) : bool :=
  bool_decide (cmd ∈ ALLOWED_TASK_COMMANDS).

(** The separator pattern [\s*(?:&&|\|\||\||;)\s*]. *)
Definition SEPARATORS : pattern :=
  [ Rep Space 0
  ; Alt [chars "&&"; chars "||"; chars "|"; chars ";"]
  ; Rep Space 0 ].

(** [re.split] on the separators, as lists of characters. *)
Definition segments (command_string : string) : list (list ascii) :=
  split false SEPARATORS (chars command_string).

(** [os.path.basename] of [posixpath]: what follows the last ['/']; [cur]
    is reversed. *)
Fixpoint basename_from (cur : list ascii) (l : list ascii) : list ascii :=
  match l with
  | [] => rev cur
  | c :: l' =>
      if Ascii.eqb c "/"%char then basename_from [] l'
      else basename_from (c :: cur) l'
  end.
Definition basename (p : string) : string := text (basename_from [] (chars p)).

Definition is_cd (segment : list ascii) : bool :=
  startswith_chars (chars "cd ") segment.

Definition is_empty (l : list ascii) : bool :=
  match l with [] => true | _ :: _ => false end.

Section Validation.
(** [shlex.split]; [None] when it raises [ValueError]. *)
Variable shlex_split : string -> option (list string).

(** The [for segment in segments] loop; [commands] is the list built so
    far.  A tokenization failure returns the empty list at once. *)
Fixpoint extract_loop (commands : list string) (segs : list (list ascii))
  : list string :=
  match segs with
  | [] => commands
  | segment :: rest =>
      let segment := strip_chars segment in
      if is_empty segment then extract_loop commands rest
      else if is_cd segment then extract_loop commands rest
      else
        match shlex_split (text segment) with
        | None => []
        | Some [] => extract_loop commands rest
        | Some (cmd :: _) => extract_loop (commands ++ [basename cmd]) rest
        end
  end.

Definition extract_commands_from_string (command_string : string)
  : list string :=
  extract_loop [] (segments command_string).

Definition validate_command (command_string : string) : bool * string :=
  if is_empty (chars command_string)
     || is_empty (strip_chars (chars command_string))
  then (false, "Empty command")
  else
    let commands := extract_commands_from_string command_string in
    match commands with
    | [] => (false, "Could not parse command")
    | _ :: _ =>
        match find (fun cmd => negb (allowed cmd)) commands with
        | Some cmd => (false, "Command '" +:+ cmd +:+ "' is not allowed")
        | None => (true, EmptyString)
        end
    end.

(** ** Vocabulary of the properties *)

Definition accepts (command_string : string) : bool :=
  fst (validate_command command_string).

Definition blank (command_string : string) : bool :=
  is_empty (chars command_string)
  || is_empty (strip_chars (chars command_string)).

(** The segments as the loop looks at them, and those it tokenizes. *)
Definition stripped_segments (command_string : string)
  : list (list ascii) :=
  strip_chars <$> segments command_string.

Definition is_command (segment : list ascii) : bool :=
  negb (is_empty segment) && negb (is_cd segment).

Definition command_segments (command_string : string)
  : list (list ascii) :=
  filter (fun segment => is_command segment = true)
         (stripped_segments command_string).

(** The commands of the segments when every one tokenizes. *)
Fixpoint commands_of (segs : list (list ascii)) : option (list string) :=
  match segs with
  | [] => Some []
  | segment :: rest =>
      if is_command segment then
        match shlex_split (text segment) with
        | None => None
        | Some [] => commands_of rest
        | Some (cmd :: _) => cons (basename cmd) <$> commands_of rest
        end
      else commands_of rest
  end.

(** The acceptance condition in the words of the specification: the
    string is not blank and every segment that does not start with
    ["cd "] tokenizes into a list whose first token, directory prefix
    stripped, is allowed. *)
Definition accepts_by_spec (command_string : string) : Prop :=
  blank command_string = false
  /\ forall segment,
       segment ∈ stripped_segments command_string ->
       is_cd segment = false ->
       exists cmd rest,
         shlex_split (text segment) = Some (cmd :: rest)
         /\ allowed (basename cmd) = true.

(** The acceptance condition of the code: moreover empty segments are
    passed over, and at least one segment gives a command. *)
Definition accepts_by_code (command_string : string) : Prop :=
  blank command_string = false
  /\ (forall segment,
        segment ∈ command_segments command_string ->
        exists tokens,
          shlex_split (text segment) = Some tokens
          /\ forall cmd rest, tokens = cmd :: rest ->
                              allowed (basename cmd) = true)
  /\ (exists segment cmd rest,
        segment ∈ command_segments command_string
        /\ shlex_split (text segment) = Some (cmd :: rest)).
End Validation.

End ServerTasks.

(* ===================================================================== *)
(** * JSON values: the argument of [json.dumps] *)
(* ===================================================================== *)

Module Json.
#[local] Set Warnings "-register-all".

Inductive json : Type :=
| JNull
| JBool (b : bool)
| JInt (n : Z)
| JStr (s : string)
| JList (l : list json)
| JObj (fields : list (string * json)).

Definition of_option (o : option string) : json :=
  match o with Some s => JStr s | None => JNull end.

(** [d[key]] on a JSON object *)
Definition get (key : string) (j : json) : option json :=
  match j with
  | JObj fields =>
      snd <$> find (fun kv => String.eqb (fst kv) key) fields
  | _ => None
  end.

(** An error response: an object that carries an ["error"] string. *)
Definition is_error (j : json) : bool :=
  match get "error" j with
  | Some (JStr _) => true
  | _ => false
  end.
End Json.

(* ===================================================================== *)
(** * api/database.py and mcp_server/feature_mcp.py *)
(* ===================================================================== *)

Module FeatureMcp.
Import Text Json.

(** The columns of [Feature] other than the primary key [id], which is the
    key of the table. *)
Record Feature : Type := {
  priority : Z;
  category : string;
  name : string;
  description : string;
  steps : list string;
  passes : bool;
  in_progress : bool;
  verification_command : option string;
  verification_evidence : option string;
  marked_passing_at : option string
}.

(** A row of [StatusChangeLog]; its own [id] is its position in the log. *)
Record StatusChangeLog : Type := {
  feature_id : Z;
  feature_name : string;
  old_status : string;
  new_status : string;
  evidence : option string;
  verification_output : option string;
  timestamp : string
}.

(** The database (two tables), the module globals of the rate limiter and
    of the backup routine, and the names of the backup files on disk. *)
Record State : Type := {
  features : gmap Z Feature;
  status_change_log : list StatusChangeLog;
  _mark_passing_timestamps : list Z;
  _last_backup_time : Z;
  backups : list Z
}.

Definition with_features (m : gmap Z Feature) (st : State) : State :=
  {| features := m;
     status_change_log := status_change_log st;
     _mark_passing_timestamps := _mark_passing_timestamps st;
     _last_backup_time := _last_backup_time st;
     backups := backups st |}.

Definition with_timestamps (ts : list Z) (st : State) : State :=
  {| features := features st;
     status_change_log := status_change_log st;
     _mark_passing_timestamps := ts;
     _last_backup_time := _last_backup_time st;
     backups := backups st |}.

Definition set_in_progress (b : bool) (f : Feature) : Feature :=
  {| priority := priority f; category := category f; name := name f;
     description := description f; steps := steps f; passes := passes f;
     in_progress := b;
     verification_command := verification_command f;
     verification_evidence := verification_evidence f;
     marked_passing_at := marked_passing_at f |}.

Definition set_priority (p : Z) (f : Feature) : Feature :=
  {| priority := p; category := category f; name := name f;
     description := description f; steps := steps f; passes := passes f;
     in_progress := in_progress f;
     verification_command := verification_command f;
     verification_evidence := verification_evidence f;
     marked_passing_at := marked_passing_at f |}.

(** Layer 6 of [feature_mark_passing]. *)
Definition set_passing (stripped_evidence now_iso : string) (f : Feature)
  : Feature :=
  {| priority := priority f; category := category f; name := name f;
     description := description f; steps := steps f;
     passes := true;
     in_progress := false;
     verification_command := verification_command f;
     verification_evidence := Some stripped_evidence;
     marked_passing_at := Some now_iso |}.

(** [Feature(priority=..., category=..., ..., passes=False)]: the other
    columns take their defaults. *)
Definition new_feature (p : Z) (c n d : string) (s : list string) : Feature :=
  {| priority := p; category := c; name := n; description := d; steps := s;
     passes := false; in_progress := false;
     verification_command := None; verification_evidence := None;
     marked_passing_at := None |}.

(** [Feature.to_dict] *)
Definition to_dict (id : Z) (f : Feature) : json :=
  JObj [ ("id", JInt id);
         ("priority", JInt (priority f));
         ("category", JStr (category f));
         ("name", JStr (name f));
         ("description", JStr (description f));
         ("steps", JList (JStr <$> steps f));
         ("passes", JBool (passes f));
         ("in_progress", JBool (in_progress f));
         ("verification_command", of_option (verification_command f));
         ("verification_evidence", of_option (verification_evidence f));
         ("marked_passing_at", of_option (marked_passing_at f)) ].

Definition error (msg : string) : json := JObj [("error", JStr msg)].

Definition not_found (id : Z) : json :=
  error ("Feature with ID " +:+ pretty id +:+ " not found").

(** ** Queries *)

Definition rows (m : gmap Z Feature) : list (Z * Feature) := map_to_list m.

(** [ORDER BY priority ASC, id ASC] *)
Definition before (a b : Z * Feature) : bool :=
  (priority (snd a) <? priority (snd b))
  || ((priority (snd a) =? priority (snd b)) && (fst a <=? fst b)).

(** [.first()] of an ordered query: the row that comes before all others. *)
Fixpoint first_by (l : list (Z * Feature)) : option (Z * Feature) :=
  match l with
  | [] => None
  | a :: l' =>
      match first_by l' with
      | None => Some a
      | Some b => if before a b then Some a else Some b
      end
  end.

(** The query of [feature_get_next]. *)
Definition next_feature (m : gmap Z Feature) : option (Z * Feature) :=
  first_by (filter (fun r => passes (snd r) = false) (rows m)).

Definition maximum (l : list Z) : option Z :=
  match l with
  | [] => None
  | x :: l' => Some (foldr Z.max x l')
  end.

(** [session.query(Feature.priority).order_by(Feature.priority.desc()).first()] *)
Definition max_priority (m : gmap Z Feature) : option Z :=
  maximum ((fun r => priority (snd r)) <$> rows m).

(** The [id] given to the next inserted row: one more than the largest. *)
Definition next_id (m : gmap Z Feature) : Z :=
  match maximum (fst <$> rows m) with
  | Some k => k + 1
  | None => 1
  end.

Definition next_priority (m : gmap Z Feature) : Z :=
  match max_priority m with
  | Some p => p + 1
  | None => 1
  end.

Definition feature_get_next (st : State) : json :=
  match next_feature (features st) with
  | None => error "All features are passing! No more work to do."
  | Some (id, f) => to_dict id f
  end.

(** ** Rate limiting and backup state *)

Definition ticks_per_second : Z := 1000000.
Definition _MAX_MARKS_PER_WINDOW : Z := 3.
Definition _WINDOW_SECONDS : Z := 300.
Definition _BACKUP_COOLDOWN : Z := 60.

Definition in_window (now t : Z) : bool :=
  now - t <? _WINDOW_SECONDS * ticks_per_second.

(** [min(l)] of a non-empty list *)
Definition minimum (l : list Z) : Z :=
  match l with
  | [] => 0
  | x :: l' => foldr Z.min x l'
  end.

(** [int(_WINDOW_SECONDS - (now - oldest))], in seconds, truncated toward
    zero. *)
Definition wait_seconds (now oldest : Z) : Z :=
  Z.quot (_WINDOW_SECONDS * ticks_per_second - (now - oldest)) ticks_per_second.

Definition rate_limit_message (wait : Z) : string :=
  "Rate limit: max " +:+ pretty _MAX_MARKS_PER_WINDOW +:+ " features per "
  +:+ pretty (_WINDOW_SECONDS / 60) +:+ " minutes. "
  +:+ "Wait " +:+ pretty wait
  +:+ "s. This prevents mass-marking without proper verification.".

(** [[t for t in _mark_passing_timestamps if now - t < _WINDOW_SECONDS]] *)
Definition kept (now : Z) (ts : list Z) : list Z :=
  filter (fun t => in_window now t = true) ts.

(** [_check_rate_limit]: the pruned list replaces the global in place. *)
Definition _check_rate_limit (now : Z) (st : State)
  : (bool * string) * State :=
  let live := kept now (_mark_passing_timestamps st) in
  let st := with_timestamps live st in
  if _MAX_MARKS_PER_WINDOW <=? Z.of_nat (length live) then
    let oldest := minimum live in
    let wait := wait_seconds now oldest in
    ((false, rate_limit_message wait), st)
  else ((true, EmptyString), st).

Fixpoint insert_sorted (x : Z) (l : list Z) : list Z :=
  match l with
  | [] => [x]
  | y :: l' =>
      if x <? y then x :: l
      else if x =? y then l
      else y :: insert_sorted x l'
  end.

(** [_backup_database].  A backup file is named after the second of its
    creation; [backups] is the sorted list of the names present, of which
    the last 20 are kept.  One clock reading serves the cooldown and the
    file name. *)
Definition _backup_database (now : Z) (db_exists : bool) (st : State) : State :=
  if now - _last_backup_time st <? _BACKUP_COOLDOWN * ticks_per_second then st
  else if db_exists then
    let all := insert_sorted (now / ticks_per_second) (backups st) in
    {| features := features st;
       status_change_log := status_change_log st;
       _mark_passing_timestamps := _mark_passing_timestamps st;
       _last_backup_time := now;
       backups := drop (length all - 20) all |}
  else st.

(** [_log_status_change]: [session.add] of one more row. *)
Definition _log_status_change (id : Z) (f : Feature) (old new : string)
           (ev out : option string) (now_iso : string) (st : State) : State :=
  {| features := features st;
     status_change_log :=
       status_change_log st ++
       [ {| feature_id := id; feature_name := name f;
            old_status := old; new_status := new;
            evidence := ev; verification_output := out;
            timestamp := now_iso |} ];
     _mark_passing_timestamps := _mark_passing_timestamps st;
     _last_backup_time := _last_backup_time st;
     backups := backups st |}.

(** ** What one call of [feature_mark_passing] reads from outside *)

(** The outcome of [subprocess.run(..., timeout=120)]. *)
Inductive RunOutcome : Type :=
| Completed (returncode : Z) (stdout stderr : string)
| TimeoutExpired.

Record Env : Type := {
  time_check : Z;                  (* time.time() in _check_rate_limit *)
  run : string -> RunOutcome;      (* subprocess.run on the command *)
  time_backup : Z;                 (* the clock in _backup_database *)
  db_exists : bool;                (* db_path.exists() *)
  utc_marked : string;             (* utcnow().isoformat() + "Z", layer 6 *)
  utc_logged : string;             (* utcnow().isoformat() + "Z", layer 7 *)
  time_record : Z                  (* time.time() after the commit *)
}.

(** A Python string is true when it is not empty. *)
Definition truthy (s : string) : bool :=
  match s with EmptyString => false | String _ _ => true end.

(** [s[-n:]] when [s] is not empty, else the empty string *)
Definition tail_of (n : nat) (s : string) : string :=
  if truthy s then suffix_slice n s else EmptyString.

Definition evidence_error : json :=
  error ("Verification evidence is REQUIRED and must be at least 50 characters. "
         +:+ "Describe specifically what you tested and what the results were.").

Definition not_in_progress_error (id : Z) : json :=
  error ("Feature " +:+ pretty id +:+ " is NOT in-progress. "
         +:+ "You must call feature_mark_in_progress(" +:+ pretty id
         +:+ ") first, do the work, then call feature_mark_passing.").

Definition verification_failed (command : string) (returncode : Z)
           (stdout stderr : string) : json :=
  JObj [ ("error", JStr ("Verification command FAILED (exit code "
                         +:+ pretty returncode
                         +:+ "). Fix the issues and try again."));
         ("command", JStr command);
         ("stdout", JStr (tail_of 500 stdout));
         ("stderr", JStr (tail_of 500 stderr)) ].

Definition verification_timeout (command : string) : json :=
  JObj [ ("error", JStr "Verification command timed out (120s limit).");
         ("command", JStr command) ].

(** Layers 5 to 8, once every gate has been passed. *)
Definition commit_passing (env : Env) (id : Z) (f : Feature) (ev : string)
           (out : option string) (st : State) : json * State :=
  let st := _backup_database (time_backup env) (db_exists env) st in
  let f' := set_passing (strip ev) (utc_marked env) f in
  let st := with_features (<[id := f']> (features st)) st in
  let st := _log_status_change id f' "in_progress" "passing"
              (Some (strip ev)) out (utc_logged env) st in
  let st := with_timestamps
              (_mark_passing_timestamps st ++ [time_record env]) st in
  (to_dict id f', st).

Definition feature_mark_passing (env : Env) (id : Z) (ev : string)
           (st : State) : json * State :=
  (* Layer 1: rate limit *)
  let '((allowed, msg), st) := _check_rate_limit (time_check env) st in
  if negb allowed then (error msg, st) else
  (* Layer 2: evidence check *)
  if negb (truthy ev) || (len (strip ev) <? 50) then (evidence_error, st) else
  match features st !! id with
  | None => (not_found id, st)
  | Some f =>
      (* Layer 3: must be in_progress *)
      if negb (in_progress f) then (not_in_progress_error id, st) else
      (* Layer 4: verification command *)
      match verification_command f with
      | Some command =>
          if truthy command then
            match run env command with
            | Completed returncode stdout stderr =>
                let verification_output :=
                  tail_of 1000 stdout +:+ tail_of 1000 stderr in
                if negb (returncode =? 0)
                then (verification_failed command returncode stdout stderr, st)
                else commit_passing env id f ev (Some verification_output) st
            | TimeoutExpired => (verification_timeout command, st)
            end
          else commit_passing env id f ev None st
      | None => commit_passing env id f ev None st
      end
  end.

(** ** The other transitions *)

Definition skipped (id : Z) (f : Feature) (old_priority new_priority : Z)
  : json :=
  JObj [ ("id", JInt id);
         ("name", JStr (name f));
         ("old_priority", JInt old_priority);
         ("new_priority", JInt new_priority);
         ("message", JStr ("Feature '" +:+ name f
                           +:+ "' moved to end of queue")) ].

Definition feature_skip (id : Z) (st : State) : json * State :=
  match features st !! id with
  | None => (not_found id, st)
  | Some f =>
      if passes f
      then (error "Cannot skip a feature that is already passing", st)
      else
        let old_priority := priority f in
        let new_priority := next_priority (features st) in
        let f' := set_in_progress false (set_priority new_priority f) in
        (skipped id f' old_priority new_priority,
         with_features (<[id := f']> (features st)) st)
  end.

Definition feature_mark_in_progress (id : Z) (st : State) : json * State :=
  match features st !! id with
  | None => (not_found id, st)
  | Some f =>
      if passes f then
        (error ("Feature with ID " +:+ pretty id +:+ " is already passing"), st)
      else if in_progress f then
        (error ("Feature with ID " +:+ pretty id +:+ " is already in-progress"),
         st)
      else
        let f' := set_in_progress true f in
        (to_dict id f', with_features (<[id := f']> (features st)) st)
  end.

Definition feature_clear_in_progress (id : Z) (st : State) : json * State :=
  match features st !! id with
  | None => (not_found id, st)
  | Some f =>
      let f' := set_in_progress false f in
      (to_dict id f', with_features (<[id := f']> (features st)) st)
  end.

(** An element of the [features] argument of [feature_create_bulk]: a
    dictionary in which each of the four keys may be absent. *)
Record FeatureData : Type := {
  data_category : option string;
  data_name : option string;
  data_description : option string;
  data_steps : option (list string)
}.

(** The [for i, feature_data in enumerate(features)] loop: [inl i] when the
    element at index [i] lacks a required key, else the table with every
    row added. *)
Fixpoint create_bulk_loop (start_priority first_id i : Z)
         (l : list FeatureData) (m : gmap Z Feature) : Z + gmap Z Feature :=
  match l with
  | [] => inr m
  | d :: l' =>
      match data_category d, data_name d, data_description d, data_steps d with
      | Some c, Some n, Some ds, Some s =>
          create_bulk_loop start_priority first_id (i + 1) l'
            (<[first_id + i := new_feature (start_priority + i) c n ds s]> m)
      | _, _, _, _ => inl i
      end
  end.

Definition feature_create_bulk (l : list FeatureData) (st : State)
  : json * State :=
  let start_priority := next_priority (features st) in
  match create_bulk_loop start_priority (next_id (features st)) 0 l
                         (features st) with
  | inl i =>
      (error ("Feature at index " +:+ pretty i +:+
              " missing required fields (category, name, description, steps)"),
       st)
  | inr m =>
      (JObj [("created", JInt (Z.of_nat (length l)))], with_features m st)
  end.

Definition feature_create (c n d : string) (s : list string) (st : State)
  : json * State :=
  let id := next_id (features st) in
  let f := new_feature (next_priority (features st)) c n d s in
  (JObj [ ("success", JBool true);
          ("message", JStr ("Created feature: " +:+ n));
          ("feature", to_dict id f) ],
   with_features (<[id := f]> (features st)) st).

(** ** Sequences of tool calls *)

Inductive Call : Type :=
| CallCreate (c n d : string) (s : list string)
| CallCreateBulk (l : list FeatureData)
| CallMarkInProgress (id : Z)
| CallClearInProgress (id : Z)
| CallSkip (id : Z)
| CallMarkPassing (env : Env) (id : Z) (ev : string).

Definition call (c : Call) (st : State) : json * State :=
  match c with
  | CallCreate c n d s => feature_create c n d s st
  | CallCreateBulk l => feature_create_bulk l st
  | CallMarkInProgress id => feature_mark_in_progress id st
  | CallClearInProgress id => feature_clear_in_progress id st
  | CallSkip id => feature_skip id st
  | CallMarkPassing env id ev => feature_mark_passing env id ev st
  end.

(** Runs the calls in order; returns the responses and the final state. *)
Fixpoint calls (cs : list Call) (st : State) : list json * State :=
  match cs with
  | [] => ([], st)
  | c :: cs' =>
      let '(r, st') := call c st in
      let '(rs, st'') := calls cs' st' in
      (r :: rs, st'')
  end.

(** The state of a freshly started server on an empty database. *)
Definition initial : State :=
  {| features := ∅; status_change_log := [];
     _mark_passing_timestamps := []; _last_backup_time := 0; backups := [] |}.

Fixpoint nondecreasing (l : list Z) : bool :=
  match l with
  | x :: ((y :: _) as l') => (x <=? y) && nondecreasing l'
  | _ => true
  end.

(** The instants, in order, at which the calls of [feature_mark_passing]
    among [cs] succeeded. *)
Fixpoint successes (cs : list Call) (st : State) : list Z :=
  match cs with
  | [] => []
  | c :: cs' =>
      let '(r, st') := call c st in
      match c with
      | CallMarkPassing env _ _ =>
          if is_error r then successes cs' st'
          else time_record env :: successes cs' st'
      | _ => successes cs' st'
      end
  end.

(** The readings of [time.time()] that the rate limiter makes during the
    calls, in program order: one on entry of [feature_mark_passing], one
    more after its commit. *)
Fixpoint clock_readings (cs : list Call) (st : State) : list Z :=
  match cs with
  | [] => []
  | c :: cs' =>
      let '(r, st') := call c st in
      match c with
      | CallMarkPassing env _ _ =>
          if is_error r then time_check env :: clock_readings cs' st'
          else time_check env :: time_record env :: clock_readings cs' st'
      | _ => clock_readings cs' st'
      end
  end.

(** Five minutes, in clock ticks, and the instants of the window that
    starts at [w]. *)
Definition window : Z := _WINDOW_SECONDS * ticks_per_second.

Definition in_interval (w t : Z) : bool := (w <=? t) && (t <? w + window).

Definition successes_within (w : Z) (l : list Z) : nat :=
  length (filter (fun t => in_interval w t = true) l).

(** The invariant (I1) of the data model, on the table and on the state. *)
Definition I1 (m : gmap Z Feature) : Prop :=
  forall id f, m !! id = Some f -> passes f = true -> in_progress f = false.

Definition passes_implies_not_in_progress (st : State) : Prop :=
  I1 (features st).

(** ** Vocabulary of the properties *)

(** The five ways in which [feature_mark_passing] turns a call down. *)
Definition rate_limited (now : Z) (st : State) : Prop :=
  fst (fst (_check_rate_limit now st)) = false.

Definition evidence_too_short (ev : string) : Prop :=
  len (strip ev) < 50.

Definition verification_fails (env : Env) (f : Feature) : Prop :=
  exists command,
    verification_command f = Some command /\ truthy command = true /\
    (run env command = TimeoutExpired \/
     exists returncode stdout stderr,
       run env command = Completed returncode stdout stderr /\
       returncode <> 0).

Definition rejected (env : Env) (id : Z) (ev : string) (st : State) : Prop :=
  rate_limited (time_check env) st
  \/ evidence_too_short ev
  \/ features st !! id = None
  \/ (exists f, features st !! id = Some f /\ in_progress f = false)
  \/ (exists f, features st !! id = Some f /\ verification_fails env f).

(** What layer 4 hands to the audit row when it lets the call through. *)
Definition verification_passes (env : Env) (f : Feature)
           (out : option string) : Prop :=
  match verification_command f with
  | Some command =>
      if truthy command then
        exists stdout stderr,
          run env command = Completed 0 stdout stderr /\
          out = Some (tail_of 1000 stdout +:+ tail_of 1000 stderr)
      else out = None
  | None => out = None
  end.

(** [p] is the largest priority in the table. *)
Definition is_max_priority (m : gmap Z Feature) (p : Z) : Prop :=
  (exists id f, m !! id = Some f /\ priority f = p)
  /\ forall id f, m !! id = Some f -> priority f <= p.

(** The order of [feature_get_next]: priority ascending, then id
    ascending. *)
Definition precedes (a b : Z * Feature) : Prop :=
  priority (snd a) < priority (snd b)
  \/ (priority (snd a) = priority (snd b) /\ fst a <= fst b).

(** [(id, f)] is the row with [passes = false] that comes first. *)
Definition is_next (m : gmap Z Feature) (id : Z) (f : Feature) : Prop :=
  m !! id = Some f /\ passes f = false
  /\ forall id' f', m !! id' = Some f' -> passes f' = false ->
                    precedes (id, f) (id', f').

(** The timestamps that [_check_rate_limit] keeps at instant [now]. *)
Definition pruned (now : Z) (st : State) : State :=
  with_timestamps (kept now (_mark_passing_timestamps st)) st.

(** Successive successes are ordered, and four of them never fit in one
    window. *)
Definition ordered (l : list Z) : Prop :=
  forall a b, [a; b] `sublist_of` l -> a <= b.

Definition spread (l : list Z) : Prop :=
  forall a b c d, [a; b; c; d] `sublist_of` l -> a + window <= d.

(** What links the list [ts] of the limiter to the history [S] of all
    successes when the clock shows [now]. *)
Record limiter_inv (now : Z) (S ts : list Z) : Prop := {
  inv_kept : forall now', now <= now' -> kept now' S = kept now' ts;
  inv_past : Forall (fun t => t <= now) S;
  inv_ordered : ordered S;
  inv_spread : spread S
}.

End FeatureMcp.

(* ===================================================================== *)
(** * The scenarios of the specification, as concrete data *)
(* ===================================================================== *)

Module Scenarios.
Import Text FeatureMcp.

(** ["x" * 60] *)
Definition evidence60 : string := text (repeat "x"%char 60).

Definition pending (p : Z) (n : string) : Feature :=
  new_feature p "A" n "D" ["s"].

(** A claimed feature, with or without a verification command. *)
Definition claimed (p : Z) (n : string) (command : option string) : Feature :=
  {| priority := p; category := "A"; name := n; description := "D";
     steps := ["s"]; passes := false; in_progress := true;
     verification_command := command; verification_evidence := None;
     marked_passing_at := None |}.

Definition store (m : gmap Z Feature) : State :=
  {| features := m; status_change_log := [];
     _mark_passing_timestamps := []; _last_backup_time := 0; backups := [] |}.

(** The outside world of one call: the clock shows [now] seconds on
    entry and one second more after the commit, and every verification
    command ends as [outcome]. *)
Definition world (now : Z) (outcome : RunOutcome) : Env :=
  {| time_check := now * ticks_per_second;
     run := fun _ => outcome;
     time_backup := now * ticks_per_second;
     db_exists := true;
     utc_marked := "2026-01-01T00:00:00Z";
     utc_logged := "2026-01-01T00:00:00Z";
     time_record := (now + 1) * ticks_per_second |}.

Definition quiet : RunOutcome := Completed 0 EmptyString EmptyString.

(** S4: the verification command exits with code 1. *)
Definition s4_state : State := store {[ 1 := claimed 1 "N" (Some "exit 1") ]}.
Definition s4_world : Env := world 1000 (Completed 1 EmptyString "boom").

(** A feature held in progress, to be released by hand. *)
Definition stuck_state : State := store {[ 1 := claimed 1 "N" None ]}.

(** S1 after [create]: one pending feature. *)
Definition s1_state : State := store {[ 1 := pending 1 "N" ]}.

(** S5: four claimed features marked passing within a minute. *)
Definition s5_state : State :=
  store (<[1 := claimed 1 "a" None]>
         (<[2 := claimed 2 "b" None]>
          (<[3 := claimed 3 "c" None]> {[ 4 := claimed 4 "d" None ]}))).

Definition s5_calls : list Call :=
  [ CallMarkPassing (world 1000 quiet) 1 evidence60;
    CallMarkPassing (world 1010 quiet) 2 evidence60;
    CallMarkPassing (world 1020 quiet) 3 evidence60;
    CallMarkPassing (world 1030 quiet) 4 evidence60 ].

(** S6: priorities 1, 2 and 3, none passing. *)
Definition s6_state : State :=
  store (<[1 := pending 1 "one"]>
         (<[2 := pending 2 "two"]> {[ 3 := pending 3 "three" ]})).

(** A verification command whose two streams are 1000 times the letter
    U+00E9, which takes two bytes in UTF-8. *)
Definition accents : string := text (repeat "233"%char 1000).
Definition accents_state : State :=
  store {[ 1 := claimed 1 "N" (Some "make check") ]}.
Definition accents_world : Env := world 1000 (Completed 0 accents accents).

(** S8 *)
Definition s8_line : string := "ANTHROPIC_API_KEY=abc123".

End Scenarios.

Example validate_lint_all :
  ServerTasks.validate_command Shlex.split "ruff check . && cd ui && npm run lint"
  = (true, EmptyString).
Proof. vm_compute. reflexivity. Qed.

(* ===================================================================== *)
(** * Properties of the feature store *)
(* ===================================================================== *)

Section FeatureMcpFacts.
Import Text Json FeatureMcp.

Lemma check_rate_limit_state now st :
  snd (_check_rate_limit now st) = pruned now st.
Proof.
  unfold _check_rate_limit, pruned.
  destruct (_MAX_MARKS_PER_WINDOW <=? _); reflexivity.
Qed.

Lemma is_error_error msg : is_error (error msg) = true.
Proof. reflexivity. Qed.

Lemma is_error_to_dict id f : is_error (to_dict id f) = false.
Proof. reflexivity. Qed.

(** Every call of [feature_mark_passing] either answers with an error and
    only prunes the timestamps, or passed all the gates and committed. *)
Lemma feature_mark_passing_inv env id ev st :
  (is_error (fst (feature_mark_passing env id ev st)) = true /\
   snd (feature_mark_passing env id ev st) = pruned (time_check env) st)
  \/
  (exists f out,
      ~ rate_limited (time_check env) st /\
      ~ evidence_too_short ev /\
      features st !! id = Some f /\
      in_progress f = true /\
      verification_passes env f out /\
      feature_mark_passing env id ev st
      = commit_passing env id f ev out (pruned (time_check env) st)).
Proof.
  unfold feature_mark_passing, rate_limited, evidence_too_short.
  pose proof (check_rate_limit_state (time_check env) st) as Hst.
  destruct (_check_rate_limit (time_check env) st) as [[ok msg] st1].
  simpl in Hst. subst st1. simpl.
  destruct ok; simpl; [|left; split; reflexivity].
  destruct (truthy ev) eqn:Htr; simpl; [|left; split; reflexivity].
  destruct (len (strip ev) <? 50) eqn:Hlen; [left; split; reflexivity|].
  apply Z.ltb_ge in Hlen.
  change (features (pruned (time_check env) st)) with (features st).
  destruct (features st !! id) as [f|] eqn:Hf; [|left; split; reflexivity].
  destruct (in_progress f) eqn:Hip; simpl; [|left; split; reflexivity].
  unfold verification_passes.
  destruct (verification_command f) as [command|] eqn:Hcmd.
  - destruct (truthy command) eqn:Hc.
    + destruct (run env command) as [rc out err|] eqn:Hrun;
        [|left; split; reflexivity].
      destruct (rc =? 0) eqn:Hrc; simpl; [|left; split; reflexivity].
      apply Z.eqb_eq in Hrc. subst rc.
      right. exists f, (Some (tail_of 1000 out +:+ tail_of 1000 err)).
      rewrite Hcmd, Hc. repeat split; try congruence; try lia.
      exists out, err. split; [assumption|reflexivity].
    + right. exists f, None. rewrite Hcmd, Hc.
      repeat split; try congruence; lia.
  - right. exists f, None. rewrite Hcmd.
    repeat split; try congruence; lia.
Qed.

Lemma empty_evidence_too_short ev : truthy ev = false -> evidence_too_short ev.
Proof. destruct ev; [intros _; vm_compute; reflexivity | discriminate]. Qed.

Lemma commit_passing_not_error env id f ev out st :
  is_error (fst (commit_passing env id f ev out st)) = false.
Proof. reflexivity. Qed.

Lemma commit_passing_features env id f ev out st :
  features (snd (commit_passing env id f ev out st))
  = <[id := set_passing (strip ev) (utc_marked env) f]> (features st).
Proof.
  unfold commit_passing, _backup_database. simpl.
  destruct (_ <? _); [reflexivity|]. destruct (db_exists env); reflexivity.
Qed.

Lemma commit_passing_log env id f ev out st :
  status_change_log (snd (commit_passing env id f ev out st))
  = status_change_log st ++
    [ {| feature_id := id; feature_name := name f;
         old_status := "in_progress"; new_status := "passing";
         evidence := Some (strip ev); verification_output := out;
         timestamp := utc_logged env |} ].
Proof.
  unfold commit_passing, _backup_database. simpl.
  destruct (_ <? _); [reflexivity|]. destruct (db_exists env); reflexivity.
Qed.

Lemma commit_passing_timestamps env id f ev out st :
  _mark_passing_timestamps (snd (commit_passing env id f ev out st))
  = _mark_passing_timestamps st ++ [time_record env].
Proof.
  unfold commit_passing, _backup_database. simpl.
  destruct (_ <? _); [reflexivity|]. destruct (db_exists env); reflexivity.
Qed.

(** C1.  A call of [feature_mark_passing] that is turned down (by the rate
    limit, by evidence of fewer than 50 characters once stripped, because
    the feature is absent or not in progress, or because its verification
    command exits non-zero or times out) answers with an error object,
    changes no field of any feature and writes no [StatusChangeLog] row. *)
Theorem mark_passing_rejected_no_mutation env id ev st :
  rejected env id ev st ->
  is_error (fst (feature_mark_passing env id ev st)) = true
  /\ features (snd (feature_mark_passing env id ev st)) = features st
  /\ status_change_log (snd (feature_mark_passing env id ev st))
     = status_change_log st.
Proof.
  intros Hrej.
  destruct (feature_mark_passing_inv env id ev st)
    as [[Herr Hst] | (f & out & Hrl & Hev & Hf & Hip & Hver & _)].
  - rewrite Herr, Hst. auto.
  - exfalso.
    destruct Hrej as [H | [H | [H | [(g & Hg & H) | (g & Hg & H)]]]];
      try contradiction; try congruence.
    assert (g = f) by congruence. subst g.
    destruct H as (command & Hcmd & Htr & Hrun).
    unfold verification_passes in Hver. rewrite Hcmd, Htr in Hver.
    destruct Hver as (so & se & Hok & _).
    destruct Hrun as [Hto | (rc & o & e & Hrun & Hrc)]; congruence.
Qed.

(** C2 (amended).  On an existing feature [feature_clear_in_progress]
    sets [in_progress] to false whatever its previous value, leaves every
    other column and every other feature alone, and appends no
    [StatusChangeLog] row, also when the previous value was true. *)
Theorem clear_in_progress_sets_false_without_log id f st :
  features st !! id = Some f ->
  fst (feature_clear_in_progress id st) = to_dict id (set_in_progress false f)
  /\ features (snd (feature_clear_in_progress id st))
     = <[id := set_in_progress false f]> (features st)
  /\ in_progress (set_in_progress false f) = false
  /\ status_change_log (snd (feature_clear_in_progress id st))
     = status_change_log st.
Proof.
  intros Hf. unfold feature_clear_in_progress. rewrite Hf. simpl. auto.
Qed.

Lemma I1_insert m id f :
  I1 m ->
  (passes f = true -> in_progress f = false) ->
  I1 (<[id := f]> m).
Proof.
  intros Hm Hf k g Hk. destruct (decide (id = k)) as [->|Hne].
  - rewrite lookup_insert_eq in Hk. injection Hk as <-. exact Hf.
  - rewrite lookup_insert_ne in Hk by assumption. eauto.
Qed.

Lemma create_bulk_loop_I1 start first l : forall i m m',
  I1 m ->
  create_bulk_loop start first i l m = inr m' ->
  I1 m'.
Proof.
  induction l as [|d l IH]; intros i m m' Hm Hloop; simpl in Hloop.
  - injection Hloop as <-. exact Hm.
  - destruct (data_category d), (data_name d), (data_description d),
      (data_steps d); try discriminate.
    eapply IH; [|exact Hloop].
    apply I1_insert; [exact Hm|]. simpl. discriminate.
Qed.

(** C5.  Each operation of the feature store ([feature_create],
    [feature_create_bulk], [feature_mark_in_progress],
    [feature_clear_in_progress], [feature_skip], [feature_mark_passing])
    preserves the invariant that a passing feature is not in progress. *)
Theorem operations_preserve_passes_not_in_progress c st :
  passes_implies_not_in_progress st ->
  passes_implies_not_in_progress (snd (call c st)).
Proof.
  unfold passes_implies_not_in_progress. intros Hst.
  change (I1 (features (snd (call c st)))).
  change (I1 (features st)) in Hst.
  destruct c as [c n d s | l | id | id | id | env id ev]; simpl.
  - apply I1_insert; [exact Hst|]. simpl. discriminate.
  - unfold feature_create_bulk.
    destruct (create_bulk_loop _ _ _ _ _) as [i|m] eqn:Hloop; simpl.
    + exact Hst.
    + eapply create_bulk_loop_I1; eauto.
  - unfold feature_mark_in_progress.
    destruct (features st !! id) as [f|] eqn:Hf; [|exact Hst].
    destruct (passes f) eqn:Hp; [exact Hst|].
    destruct (in_progress f); [exact Hst|]. simpl.
    apply I1_insert; [exact Hst|]. simpl. congruence.
  - unfold feature_clear_in_progress.
    destruct (features st !! id) as [f|] eqn:Hf; [|exact Hst]. simpl.
    apply I1_insert; [exact Hst|]. reflexivity.
  - unfold feature_skip.
    destruct (features st !! id) as [f|] eqn:Hf; [|exact Hst].
    destruct (passes f) eqn:Hp; [exact Hst|]. simpl.
    apply I1_insert; [exact Hst|]. reflexivity.
  - destruct (feature_mark_passing_inv env id ev st)
      as [[_ ->] | (f & out & _ & _ & _ & _ & _ & ->)].
    + exact Hst.
    + rewrite commit_passing_features.
      apply I1_insert; [exact Hst|]. reflexivity.
Qed.

(** ** Truncation of the verification output *)

Lemma length_last_chars n l : (length (last_chars n l) <= n)%nat.
Proof. unfold last_chars. rewrite length_drop. lia. Qed.

Lemma last_chars_suffix n l : exists front, l = front ++ last_chars n l.
Proof.
  unfold last_chars. exists (take (length l - n) l).
  symmetry. apply take_drop.
Qed.

Lemma length_text l : String.length (text l) = length l.
Proof. induction l as [|c l IH]; simpl; [reflexivity|]. now rewrite IH. Qed.

Lemma text_chars s : text (chars s) = s.
Proof. apply string_of_list_ascii_of_string. Qed.

Lemma chars_text l : chars (text l) = l.
Proof. apply list_ascii_of_string_of_list_ascii. Qed.

Lemma text_app l1 l2 : text (l1 ++ l2) = text l1 +:+ text l2.
Proof. induction l1 as [|c l1 IH]; simpl; [reflexivity|]. now rewrite IH. Qed.

Lemma chars_app s1 s2 : chars (s1 +:+ s2) = chars s1 ++ chars s2.
Proof.
  rewrite <- (text_chars s1), <- (text_chars s2) at 1.
  now rewrite <- text_app, chars_text.
Qed.

Lemma suffix_slice_length n s : (String.length (suffix_slice n s) <= n)%nat.
Proof. unfold suffix_slice. rewrite length_text. apply length_last_chars. Qed.

Lemma suffix_slice_suffix n s : exists front, s = front +:+ suffix_slice n s.
Proof.
  destruct (last_chars_suffix n (chars s)) as [front Hfront].
  exists (text front). unfold suffix_slice.
  rewrite <- text_app, <- Hfront. symmetry. apply text_chars.
Qed.

Lemma tail_of_suffix_slice n s : tail_of n s = suffix_slice n s.
Proof. destruct s; reflexivity. Qed.

Lemma utf8_len_app s1 s2 : utf8_len (s1 +:+ s2) = (utf8_len s1 + utf8_len s2)%nat.
Proof.
  unfold utf8_len. rewrite chars_app, foldr_app.
  induction (chars s1) as [|c l IH]; simpl; [reflexivity|].
  rewrite IH. lia.
Qed.

Lemma is_ascii_app s1 s2 : is_ascii (s1 +:+ s2) = is_ascii s1 && is_ascii s2.
Proof. unfold is_ascii. now rewrite chars_app, forallb_app. Qed.

Lemma utf8_len_ascii s : is_ascii s = true -> utf8_len s = String.length s.
Proof.
  unfold is_ascii, utf8_len. rewrite <- (text_chars s) at 3.
  rewrite length_text.
  induction (chars s) as [|c l IH]; simpl; [reflexivity|].
  intros [Hc Hl]%andb_true_iff. unfold utf8_width at 1.
  rewrite Hc. simpl. f_equal. exact (IH Hl).
Qed.

(** C9 (amended).  When [feature_mark_passing] commits, exactly one
    [StatusChangeLog] row is appended; its [verification_output] is absent
    when the feature has no verification command, and otherwise is the
    last 1000 characters at most of the command's stdout followed by the
    last 1000 characters at most of its stderr: the bound is 1000
    characters (code points) per stream, which are 1000 bytes at most when
    the stream is ASCII. *)
Theorem committed_output_at_most_1000_chars_per_stream env id ev st :
  is_error (fst (feature_mark_passing env id ev st)) = false ->
  exists f row,
    features st !! id = Some f
    /\ status_change_log (snd (feature_mark_passing env id ev st))
       = status_change_log st ++ [row]
    /\ verification_passes env f (verification_output row)
    /\ (verification_output row = None
        \/ exists tail_out tail_err front_out front_err command,
             verification_command f = Some command
             /\ run env command
                = Completed 0 (front_out +:+ tail_out) (front_err +:+ tail_err)
             /\ verification_output row = Some (tail_out +:+ tail_err)
             /\ (String.length tail_out <= 1000)%nat
             /\ (String.length tail_err <= 1000)%nat
             /\ (is_ascii (front_out +:+ tail_out) = true ->
                 (utf8_len tail_out <= 1000)%nat)
             /\ (is_ascii (front_err +:+ tail_err) = true ->
                 (utf8_len tail_err <= 1000)%nat)).
Proof.
  intros Hok.
  destruct (feature_mark_passing_inv env id ev st)
    as [[Herr _] | (f & out & _ & _ & Hf & _ & Hver & Heq)]; [congruence|].
  rewrite Heq, commit_passing_log.
  eexists f, _. split; [exact Hf|]. split; [reflexivity|]. simpl.
  split; [exact Hver|].
  unfold verification_passes in Hver.
  destruct (verification_command f) as [command|]; [|left; exact Hver].
  destruct (truthy command); [|left; exact Hver].
  destruct Hver as (so & se & Hrun & ->). right.
  rewrite !tail_of_suffix_slice.
  destruct (suffix_slice_suffix 1000 so) as [fo Hfo].
  destruct (suffix_slice_suffix 1000 se) as [fe Hfe].
  exists (suffix_slice 1000 so), (suffix_slice 1000 se), fo, fe, command.
  pose proof (suffix_slice_length 1000 so) as Hlo.
  pose proof (suffix_slice_length 1000 se) as Hle.
  rewrite <- Hfo, <- Hfe.
  repeat split; auto.
  - rewrite Hfo at 1. rewrite is_ascii_app. intros [_ Ha]%andb_true_iff.
    now rewrite (utf8_len_ascii _ Ha).
  - rewrite Hfe at 1. rewrite is_ascii_app. intros [_ Ha]%andb_true_iff.
    now rewrite (utf8_len_ascii _ Ha).
Qed.

(** ** Queries on the table *)

Lemma maximum_spec l p :
  maximum l = Some p -> p ∈ l /\ forall x, x ∈ l -> x <= p.
Proof.
  destruct l as [|x l]; [discriminate|]. simpl. intros [= <-].
  induction l as [|y l IH]; simpl.
  - split; [left|]. intros z Hz. apply list_elem_of_singleton in Hz. lia.
  - destruct IH as [Hin Hle]. split.
    + destruct (Z.max_spec y (foldr Z.max x l)) as [[_ ->] | [_ ->]].
      * apply elem_of_cons in Hin as [Hin | Hin];
          [rewrite Hin; left | right; right; exact Hin].
      * right; left.
    + intros z Hz.
      apply elem_of_cons in Hz as [-> | Hz].
      * specialize (Hle x ltac:(left)). lia.
      * apply elem_of_cons in Hz as [-> | Hz]; [lia|].
        specialize (Hle z ltac:(right; exact Hz)). lia.
Qed.

Lemma maximum_is_Some l x : x ∈ l -> exists p, maximum l = Some p.
Proof. destruct l; [intros H; inversion H | eexists; reflexivity]. Qed.

Lemma rows_lookup (m : gmap Z Feature) id f :
  (id, f) ∈ rows m <-> m !! id = Some f.
Proof. apply elem_of_map_to_list. Qed.

Lemma max_priority_spec m p :
  max_priority m = Some p -> is_max_priority m p.
Proof.
  unfold max_priority. intros [Hin Hle]%maximum_spec. split.
  - apply list_elem_of_fmap in Hin as ([id f] & -> & Hr).
    exists id, f. split; [now apply rows_lookup | reflexivity].
  - intros id f Hf. apply Hle. apply list_elem_of_fmap.
    exists (id, f). split; [reflexivity | now apply rows_lookup].
Qed.

Lemma max_priority_is_Some m id f :
  m !! id = Some f -> exists p, max_priority m = Some p.
Proof.
  intros Hf. apply (maximum_is_Some _ (priority f)).
  apply list_elem_of_fmap. exists (id, f).
  split; [reflexivity | now apply rows_lookup].
Qed.

Lemma is_max_priority_unique m p q :
  is_max_priority m p -> is_max_priority m q -> p = q.
Proof.
  intros [(i & f & Hf & <-) Hp] [(j & g & Hg & <-) Hq].
  specialize (Hp _ _ Hg). specialize (Hq _ _ Hf). lia.
Qed.

Lemma before_precedes a b : before a b = true <-> precedes a b.
Proof. unfold before, precedes. lia. Qed.

Lemma precedes_total a b : precedes a b \/ precedes b a.
Proof. unfold precedes. lia. Qed.

Lemma precedes_trans a b c : precedes a b -> precedes b c -> precedes a c.
Proof. unfold precedes. lia. Qed.

Lemma first_by_spec l a :
  first_by l = Some a -> a ∈ l /\ forall b, b ∈ l -> precedes a b.
Proof.
  revert a. induction l as [|x l IH]; intros a; simpl; [discriminate|].
  destruct (first_by l) as [b|] eqn:Hb.
  - destruct (IH b eq_refl) as [Hin Hmin].
    destruct (before x b) eqn:Hxb; intros [= <-].
    + apply before_precedes in Hxb. split; [left|].
      intros c [-> | Hc]%elem_of_cons; [unfold precedes; lia|].
      eapply precedes_trans; eauto.
    + split; [right; exact Hin|].
      intros c [-> | Hc]%elem_of_cons; [|auto].
      destruct (precedes_total b x) as [H | H]; [exact H|].
      apply before_precedes in H. congruence.
  - intros [= <-]. destruct l as [|y l]; simpl in Hb.
    + split; [left|].
      intros c Hc. apply list_elem_of_singleton in Hc as ->.
      unfold precedes; lia.
    + destruct (first_by l); [destruct (before y p)|]; discriminate.
Qed.

Lemma first_by_is_Some l a : a ∈ l -> exists b, first_by l = Some b.
Proof.
  destruct l as [|x l]; [intros H; inversion H|]. intros _. simpl.
  destruct (first_by l) as [b|]; [destruct (before x b)|]; eauto.
Qed.

Lemma candidates_lookup m id f :
  (id, f) ∈ filter (fun r => passes (snd r) = false) (rows m)
  <-> m !! id = Some f /\ passes f = false.
Proof. rewrite list_elem_of_filter, rows_lookup. simpl. tauto. Qed.

Lemma next_feature_Some m id f :
  next_feature m = Some (id, f) -> is_next m id f.
Proof.
  unfold next_feature. intros [Hin Hmin]%first_by_spec.
  apply candidates_lookup in Hin as [Hf Hp].
  repeat split; auto.
  intros id' f' Hf' Hp'. apply Hmin. apply candidates_lookup. auto.
Qed.

Lemma is_next_unique m id f id' f' :
  is_next m id f -> is_next m id' f' -> id = id' /\ f = f'.
Proof.
  intros (Hf & Hp & Hmin) (Hf' & Hp' & Hmin').
  specialize (Hmin _ _ Hf' Hp'). specialize (Hmin' _ _ Hf Hp).
  unfold precedes in *. simpl in *.
  assert (id = id') as -> by lia. split; congruence.
Qed.

Lemma next_feature_is_Some m id f :
  m !! id = Some f -> passes f = false ->
  exists id' f', next_feature m = Some (id', f').
Proof.
  intros Hf Hp.
  destruct (first_by_is_Some
              (filter (fun r => passes (snd r) = false) (rows m)) (id, f))
    as [[id' f'] H]; [now apply candidates_lookup|].
  exists id', f'. exact H.
Qed.

Lemma is_next_next_feature m id f :
  is_next m id f -> next_feature m = Some (id, f).
Proof.
  intros Hn. pose proof Hn as (Hf & Hp & _).
  destruct (next_feature_is_Some m id f Hf Hp) as (id' & f' & H).
  pose proof (next_feature_Some _ _ _ H) as Hn'.
  destruct (is_next_unique _ _ _ _ _ Hn Hn') as [-> ->]. exact H.
Qed.

Lemma feature_get_next_is_next st id f :
  is_next (features st) id f -> feature_get_next st = to_dict id f.
Proof.
  intros H. unfold feature_get_next.
  now rewrite (is_next_next_feature _ _ _ H).
Qed.

(** ** [feature_skip] *)

Lemma feature_skip_passing id f st :
  features st !! id = Some f -> passes f = true ->
  feature_skip id st
  = (error "Cannot skip a feature that is already passing", st).
Proof. intros Hf Hp. unfold feature_skip. now rewrite Hf, Hp. Qed.

Lemma feature_skip_pending id f st :
  features st !! id = Some f -> passes f = false ->
  exists m,
    is_max_priority (features st) m /\
    feature_skip id st
    = (skipped id f (priority f) (m + 1),
       with_features
         (<[id := set_in_progress false (set_priority (m + 1) f)]>
            (features st)) st).
Proof.
  intros Hf Hp. unfold feature_skip, next_priority. rewrite Hf, Hp.
  destruct (max_priority_is_Some _ _ _ Hf) as [m Hm]. rewrite Hm.
  exists m. split; [now apply max_priority_spec | reflexivity].
Qed.

(** C6.  [feature_skip] on an existing feature refuses when it is
    passing; otherwise it gives the feature the largest priority in the
    table plus one, clears [in_progress], and answers with the old and
    the new priority.  With three features of priorities 1, 2 and 3, none
    passing, skipping the first gives it priority 4 and [feature_get_next]
    then returns the feature of priority 2. *)
Theorem skip_moves_feature_to_tail id f st :
  features st !! id = Some f ->
  (passes f = true ->
     is_error (fst (feature_skip id st)) = true
     /\ snd (feature_skip id st) = st)
  /\ (passes f = false ->
      exists m f',
        is_max_priority (features st) m
        /\ f' = set_in_progress false (set_priority (m + 1) f)
        /\ priority f' = m + 1 /\ in_progress f' = false
        /\ features (snd (feature_skip id st)) = <[id := f']> (features st)
        /\ get "old_priority" (fst (feature_skip id st))
           = Some (JInt (priority f))
        /\ get "new_priority" (fst (feature_skip id st))
           = Some (JInt (m + 1)))
  /\ (forall id2 id3 f2 f3,
        id <> id2 -> id <> id3 -> id2 <> id3 ->
        features st = <[id := f]> (<[id2 := f2]> {[id3 := f3]}) ->
        priority f = 1 -> priority f2 = 2 -> priority f3 = 3 ->
        passes f = false -> passes f2 = false -> passes f3 = false ->
        (priority <$> features (snd (feature_skip id st)) !! id) = Some 4
        /\ feature_get_next (snd (feature_skip id st)) = to_dict id2 f2).
Proof.
  intros Hf. split; [|split].
  - intros Hp. rewrite (feature_skip_passing _ _ _ Hf Hp). auto.
  - intros Hp. destruct (feature_skip_pending _ _ _ Hf Hp) as (m & Hm & ->).
    exists m, (set_in_progress false (set_priority (m + 1) f)).
    repeat split; auto; apply Hm.
  - intros id2 id3 f2 f3 H12 H13 H23 Hm P1 P2 P3 N1 N2 N3.
    destruct (feature_skip_pending _ _ _ Hf N1) as (m & Hmax & ->). simpl.
    assert (Hl2 : features st !! id2 = Some f2)
      by (rewrite Hm; now simplify_map_eq).
    assert (Hl3 : features st !! id3 = Some f3)
      by (rewrite Hm; now simplify_map_eq).
    assert (Hall : forall k g, features st !! k = Some g ->
              (k = id /\ g = f) \/ (k = id2 /\ g = f2) \/ (k = id3 /\ g = f3)).
    { intros k g Hk. rewrite Hm in Hk.
      destruct (decide (k = id)) as [->|]; [simplify_map_eq; auto|].
      destruct (decide (k = id2)) as [->|]; [simplify_map_eq; auto|].
      destruct (decide (k = id3)) as [->|]; simplify_map_eq; auto. }
    assert (m = 3) as ->.
    { destruct Hmax as [(k & g & Hk & <-) Hle].
      specialize (Hle _ _ Hl3).
      destruct (Hall _ _ Hk) as [[_ ->] | [[_ ->] | [_ ->]]]; lia. }
    split; [now rewrite lookup_insert_eq|].
    apply feature_get_next_is_next. simpl. split; [|split].
    + rewrite lookup_insert_ne by assumption. exact Hl2.
    + exact N2.
    + intros k g Hk Hp. unfold precedes. simpl.
      destruct (decide (id = k)) as [<-|Hne].
      * rewrite lookup_insert_eq in Hk. injection Hk as <-. simpl. lia.
      * rewrite lookup_insert_ne in Hk by assumption.
        destruct (Hall _ _ Hk) as [[-> _] | [[-> ->] | [_ ->]]];
          [congruence | lia | lia].
Qed.

(** ** Claiming and releasing a feature *)

Lemma set_in_progress_roundtrip f :
  in_progress f = false ->
  set_in_progress false (set_in_progress true f) = f.
Proof. destruct f; simpl; intros ->; reflexivity. Qed.

Lemma with_features_same st : with_features (features st) st = st.
Proof. destruct st; reflexivity. Qed.

(** C7.  For a feature [f] that neither passes nor is in progress,
    [feature_mark_in_progress] succeeds and a following
    [feature_clear_in_progress] gives back the very state the pair started
    from: [passes] is unchanged, [f] is again a candidate of
    [feature_get_next], which answers with the row of [passes = false]
    that is least for (priority, id), hence with [f] when [f] is that
    row. *)
Theorem mark_then_clear_in_progress_roundtrip id f st :
  features st !! id = Some f ->
  passes f = false ->
  in_progress f = false ->
  let marked := feature_mark_in_progress id st in
  let cleared := feature_clear_in_progress id (snd marked) in
  fst marked = to_dict id (set_in_progress true f)
  /\ features (snd marked) !! id = Some (set_in_progress true f)
  /\ snd cleared = st
  /\ features (snd cleared) !! id = Some f
  /\ (exists id' f',
        is_next (features (snd cleared)) id' f'
        /\ precedes (id', f') (id, f)
        /\ feature_get_next (snd cleared) = to_dict id' f')
  /\ (is_next (features st) id f ->
      feature_get_next (snd cleared) = to_dict id f).
Proof.
  intros Hf Hp Hip marked cleared.
  assert (Hmarked : marked
            = (to_dict id (set_in_progress true f),
               with_features (<[id := set_in_progress true f]> (features st))
                             st)).
  { unfold marked, feature_mark_in_progress. now rewrite Hf, Hp, Hip. }
  assert (Hcleared : snd cleared = st).
  { unfold cleared, feature_clear_in_progress. rewrite Hmarked. simpl.
    rewrite lookup_insert_eq. simpl.
    rewrite set_in_progress_roundtrip by assumption.
    rewrite insert_insert_eq, insert_id by assumption.
    destruct st; reflexivity. }
  rewrite Hcleared, Hmarked. simpl.
  split; [reflexivity|]. split; [apply lookup_insert_eq|].
  split; [reflexivity|]. split; [exact Hf|]. split.
  - destruct (next_feature_is_Some _ _ _ Hf Hp) as (id' & f' & Hnext).
    pose proof (next_feature_Some _ _ _ Hnext) as Hn.
    exists id', f'. split; [exact Hn|]. split.
    + destruct Hn as (_ & _ & Hmin). now apply Hmin.
    + now apply feature_get_next_is_next.
  - apply feature_get_next_is_next.
Qed.

(** ** The rate limiter *)

Lemma in_window_iff now t : in_window now t = true <-> now < t + window.
Proof. unfold in_window, window. lia. Qed.

Lemma kept_kept now now' ts : now <= now' -> kept now' (kept now ts) = kept now' ts.
Proof.
  intros Hle. unfold kept. rewrite list_filter_filter.
  apply list_filter_iff. intros t. rewrite !in_window_iff. lia.
Qed.

Lemma filter_sublist_mono {A} (P : A -> Prop) `{!forall x, Decision (P x)}
      (l1 l2 : list A) :
  l1 `sublist_of` l2 -> filter P l1 `sublist_of` filter P l2.
Proof.
  induction 1 as [|x l1 l2 _ IH|x l1 l2 _ IH].
  - constructor.
  - rewrite !filter_cons. destruct (decide (P x)); [constructor|]; exact IH.
  - rewrite filter_cons. destruct (decide (P x)); [constructor|]; exact IH.
Qed.

Lemma sublist_snoc_inv {A} (l k : list A) (x : A) :
  l `sublist_of` k ++ [x] ->
  l `sublist_of` k \/ exists l', l = l' ++ [x] /\ l' `sublist_of` k.
Proof.
  intros (k1 & k2 & -> & H1 & H2)%sublist_app_r.
  inversion H2 as [|y a b H3|y a b H3]; subst.
  - apply sublist_nil_r in H3 as ->. right. eauto.
  - apply sublist_nil_r in H3 as ->. left. now rewrite app_nil_r.
Qed.

Lemma limiter_inv_later now now' S ts :
  now <= now' -> limiter_inv now S ts -> limiter_inv now' S (kept now' ts).
Proof.
  intros Hle [Hk Hp Ho Hs]. split; auto.
  - intros n Hn. rewrite kept_kept by assumption. apply Hk. lia.
  - eapply Forall_impl; [exact Hp|]. simpl. intros; lia.
Qed.

Lemma limiter_inv_record now rec S ts :
  now <= rec ->
  (length (kept now ts) < 3)%nat ->
  limiter_inv now S ts ->
  limiter_inv rec (S ++ [rec]) (kept now ts ++ [rec]).
Proof.
  intros Hle Hlen [Hk Hp Ho Hs]. split.
  - intros n Hn. unfold kept in *. rewrite !filter_app. f_equal.
    fold (kept n S). fold (kept now ts). fold (kept n (kept now ts)).
    rewrite kept_kept by lia. apply Hk. lia.
  - apply Forall_app. split.
    + eapply Forall_impl; [exact Hp|]. simpl. intros; lia.
    + repeat constructor. lia.
  - intros a b [H | (l' & Heq & H)]%sublist_snoc_inv; [auto|].
    destruct l' as [|a' [|? ?]]; simplify_eq/=;
      try match goal with E : [] = ?l ++ [_] |- _ => destruct l; discriminate end.
    apply sublist_cons_l in H as (k1 & k2 & -> & _).
    rewrite Forall_app, Forall_cons in Hp. lia.
  - intros a b c d [H | (l' & Heq & H)]%sublist_snoc_inv; [eauto|].
    destruct l' as [|a' [|b' [|c' [|? ?]]]]; simplify_eq/=;
      try match goal with E : [] = ?l ++ [_] |- _ => destruct l; discriminate end.
    destruct (decide (a' + window <= rec)) as [|Hfresh]; [assumption|].
    exfalso.
    assert (Hab : a' <= b').
    { apply Ho. etrans; [|exact H]. repeat constructor. }
    assert (Hac : a' <= c').
    { apply Ho. etrans; [|exact H]. constructor. constructor 3. repeat constructor. }
    assert (Hsub : filter (fun t => in_window now t = true) [a'; b'; c']
                   `sublist_of` kept now ts).
    { rewrite <- (Hk now) by lia. now apply filter_sublist_mono. }
    assert (Hall : filter (fun t => in_window now t = true) [a'; b'; c']
                   = [a'; b'; c']).
    { rewrite !filter_cons, filter_nil.
      repeat (destruct (decide _) as [|Hn];
              [|exfalso; apply Hn; apply in_window_iff; lia]).
      reflexivity. }
    rewrite Hall in Hsub. apply sublist_length in Hsub. simpl in Hsub. lia.
Qed.

Lemma limiter_inv_mono now now' S ts :
  now <= now' -> limiter_inv now S ts -> limiter_inv now' S ts.
Proof.
  intros Hle [Hk Hp Ho Hs]. split; auto.
  - intros n Hn. apply Hk. lia.
  - eapply Forall_impl; [exact Hp|]. simpl. intros; lia.
Qed.

Lemma limiter_inv_start now : limiter_inv now [] [].
Proof.
  split; [reflexivity | constructor | |].
  - intros a b H. apply sublist_nil_r in H. discriminate.
  - intros a b c d H. apply sublist_nil_r in H. discriminate.
Qed.

Lemma not_rate_limited_length now st :
  ~ rate_limited now st ->
  (length (kept now (_mark_passing_timestamps st)) < 3)%nat.
Proof.
  unfold rate_limited, _check_rate_limit, _MAX_MARKS_PER_WINDOW.
  fold (kept now (_mark_passing_timestamps st)).
  destruct (3 <=? _) eqn:H; simpl; [congruence | lia].
Qed.

Lemma rate_limited_length now st :
  rate_limited now st ->
  (3 <= length (kept now (_mark_passing_timestamps st)))%nat.
Proof.
  unfold rate_limited, _check_rate_limit, _MAX_MARKS_PER_WINDOW.
  fold (kept now (_mark_passing_timestamps st)).
  destruct (3 <=? _) eqn:H; simpl; [lia | congruence].
Qed.

Lemma nondecreasing_cons x l :
  nondecreasing (x :: l) = true ->
  nondecreasing l = true /\ forall y l', l = y :: l' -> x <= y.
Proof.
  destruct l as [|y l]; simpl; [intros _; split; [reflexivity | discriminate]|].
  intros [H1 H2]%andb_true_iff. split; [exact H2|].
  intros ? ? [= <- <-]. lia.
Qed.

(** The successes of a run keep the invariant: four of them never lie
    within one window. *)
Lemma successes_spread cs : forall st S now,
  limiter_inv now S (_mark_passing_timestamps st) ->
  nondecreasing (now :: clock_readings cs st) = true ->
  spread (S ++ successes cs st).
Proof.
  induction cs as [|c cs IH]; intros st S now Hinv Hclock.
  - simpl. rewrite app_nil_r. apply Hinv.
  - destruct c as [c n d s | l | id | id | id | env id ev].
    + cbn [successes clock_readings call] in Hclock |- *.
      destruct (feature_create c n d s st) as [r st'] eqn:Hcall.
      apply (IH st' S now); [|exact Hclock].
      unfold feature_create in Hcall. now injection Hcall as _ <-.
    + cbn [successes clock_readings call] in Hclock |- *.
      destruct (feature_create_bulk l st) as [r st'] eqn:Hcall.
      apply (IH st' S now); [|exact Hclock].
      unfold feature_create_bulk in Hcall.
      destruct (create_bulk_loop _ _ _ _ _); now injection Hcall as _ <-.
    + cbn [successes clock_readings call] in Hclock |- *.
      destruct (feature_mark_in_progress id st) as [r st'] eqn:Hcall.
      apply (IH st' S now); [|exact Hclock].
      unfold feature_mark_in_progress in Hcall.
      destruct (features st !! id) as [f|];
        [destruct (passes f); [|destruct (in_progress f)]|];
        now injection Hcall as _ <-.
    + cbn [successes clock_readings call] in Hclock |- *.
      destruct (feature_clear_in_progress id st) as [r st'] eqn:Hcall.
      apply (IH st' S now); [|exact Hclock].
      unfold feature_clear_in_progress in Hcall.
      destruct (features st !! id) as [f|]; now injection Hcall as _ <-.
    + cbn [successes clock_readings call] in Hclock |- *.
      destruct (feature_skip id st) as [r st'] eqn:Hcall.
      apply (IH st' S now); [|exact Hclock].
      unfold feature_skip in Hcall.
      destruct (features st !! id) as [f|]; [destruct (passes f)|];
        now injection Hcall as _ <-.
    + cbn [successes clock_readings call] in Hclock |- *.
      destruct (feature_mark_passing_inv env id ev st)
        as [[Herr Hst] | (f & out & Hrl & _ & _ & _ & _ & Heq)].
      * destruct (feature_mark_passing env id ev st) as [r st'].
        simpl in Herr, Hst. subst st'. rewrite Herr in *.
        apply nondecreasing_cons in Hclock as [Hclock Hle].
        apply (IH _ S (time_check env)); [|exact Hclock].
        apply (limiter_inv_later now); [eapply Hle; reflexivity | exact Hinv].
      * rewrite Heq in *.
        destruct (commit_passing env id f ev out (pruned (time_check env) st))
          as [r st'] eqn:Hcommit.
        assert (Hr : is_error r = false).
        { change r with (fst (r, st')). rewrite <- Hcommit. reflexivity. }
        assert (Hts : _mark_passing_timestamps st'
                      = kept (time_check env) (_mark_passing_timestamps st)
                        ++ [time_record env]).
        { change st' with (snd (r, st')). rewrite <- Hcommit.
          apply commit_passing_timestamps. }
        rewrite Hr in *.
        apply nondecreasing_cons in Hclock as [Hclock Hle1].
        apply nondecreasing_cons in Hclock as [Hclock Hle2].
        rewrite cons_middle, app_assoc.
        apply (IH st' _ (time_record env)); [|exact Hclock].
        rewrite Hts. apply limiter_inv_record.
        -- eapply Hle2; reflexivity.
        -- now apply not_rate_limited_length.
        -- apply (limiter_inv_mono now); [eapply Hle1; reflexivity | exact Hinv].
Qed.

Lemma spread_at_most_three l w : spread l -> (successes_within w l <= 3)%nat.
Proof.
  intros Hs. unfold successes_within.
  destruct (filter (fun t => in_interval w t = true) l)
    as [|a [|b [|c [|d rest]]]] eqn:Hf; simpl; try lia.
  exfalso.
  assert (Hsub : [a; b; c; d] `sublist_of` l).
  { etrans; [|apply (sublist_filter (fun t => in_interval w t = true))].
    rewrite Hf. repeat constructor. apply sublist_nil_l. }
  specialize (Hs _ _ _ _ Hsub).
  assert (Ha : in_interval w a = true).
  { apply (proj1 (list_elem_of_filter (fun t => in_interval w t = true) l a)).
    rewrite Hf. left. }
  assert (Hd : in_interval w d = true).
  { apply (proj1 (list_elem_of_filter (fun t => in_interval w t = true) l d)).
    rewrite Hf. do 3 right. left. }
  unfold in_interval in *. lia.
Qed.

Lemma minimum_spec l x :
  x ∈ l -> minimum l ∈ l /\ forall y, y ∈ l -> minimum l <= y.
Proof.
  destruct l as [|a l]; [intros H; inversion H|]. intros _. simpl.
  induction l as [|b l IH]; simpl.
  - split; [left|]. intros y Hy. apply list_elem_of_singleton in Hy. lia.
  - destruct IH as [Hin Hle]. split.
    + destruct (Z.min_spec b (foldr Z.min a l)) as [[_ ->] | [_ ->]].
      * right; left.
      * apply elem_of_cons in Hin as [Hin | Hin];
          [rewrite Hin; left | right; right; exact Hin].
    + intros y Hy.
      apply elem_of_cons in Hy as [-> | Hy].
      * specialize (Hle a ltac:(left)). lia.
      * apply elem_of_cons in Hy as [-> | Hy]; [lia|].
        specialize (Hle y ltac:(right; exact Hy)). lia.
Qed.

Lemma wait_seconds_bounds now oldest :
  in_window now oldest = true ->
  0 <= wait_seconds now oldest
  /\ wait_seconds now oldest * ticks_per_second <= oldest + window - now
  /\ oldest + window - now < (wait_seconds now oldest + 1) * ticks_per_second.
Proof.
  intros H%in_window_iff. unfold wait_seconds.
  fold window. rewrite Z.quot_div_nonneg by (unfold ticks_per_second; lia).
  unfold window, _WINDOW_SECONDS, ticks_per_second in *.
  Z.div_mod_to_equations. lia.
Qed.

Lemma rate_limited_response env id ev st :
  rate_limited (time_check env) st ->
  fst (feature_mark_passing env id ev st)
  = error (rate_limit_message
             (wait_seconds (time_check env)
                (minimum (kept (time_check env) (_mark_passing_timestamps st))))).
Proof.
  unfold rate_limited, feature_mark_passing, _check_rate_limit.
  fold (kept (time_check env) (_mark_passing_timestamps st)).
  destruct (_MAX_MARKS_PER_WINDOW <=? _); simpl; [reflexivity | discriminate].
Qed.

(** C4.  In a run of tool calls against a freshly started server whose
    clock never goes back, at most 3 calls of [feature_mark_passing]
    succeed within any window of 5 minutes (the instants from [w] up to,
    not including, [w] plus 5 minutes).  A call that answers with an
    error records no timestamp (it only prunes the expired ones); a call
    that succeeds has committed the feature and one audit row and appends
    its timestamp.  A call stopped by the rate limiter answers with the
    number of whole seconds left until the oldest timestamp still in the
    window expires. *)
Theorem rate_limit_three_per_window cs st0 :
  _mark_passing_timestamps st0 = [] ->
  nondecreasing (clock_readings cs st0) = true ->
  (forall w, (successes_within w (successes cs st0) <= 3)%nat)
  /\ (forall env id ev st,
        let r := feature_mark_passing env id ev st in
        let live := kept (time_check env) (_mark_passing_timestamps st) in
        (is_error (fst r) = true ->
           _mark_passing_timestamps (snd r) = live
           /\ features (snd r) = features st
           /\ status_change_log (snd r) = status_change_log st)
        /\ (is_error (fst r) = false ->
              _mark_passing_timestamps (snd r) = live ++ [time_record env]
              /\ exists f row,
                   features (snd r) !! id = Some f /\ passes f = true
                   /\ status_change_log (snd r)
                      = status_change_log st ++ [row]))
  /\ (forall env id ev st,
        rate_limited (time_check env) st ->
        let now := time_check env in
        let live := kept now (_mark_passing_timestamps st) in
        exists oldest wait,
          oldest ∈ live /\ (forall t, t ∈ live -> oldest <= t)
          /\ fst (feature_mark_passing env id ev st)
             = error (rate_limit_message wait)
          /\ 0 <= wait
          /\ wait * ticks_per_second <= oldest + window - now
          /\ oldest + window - now < (wait + 1) * ticks_per_second).
Proof.
  intros Hfresh Hclock. split; [|split].
  - intros w. apply spread_at_most_three.
    change (successes cs st0) with ([] ++ successes cs st0).
    destruct (clock_readings cs st0) as [|t rest] eqn:Hr.
    + apply (successes_spread cs st0 [] 0).
      * rewrite Hfresh. apply limiter_inv_start.
      * now rewrite Hr.
    + apply (successes_spread cs st0 [] t).
      * rewrite Hfresh. apply limiter_inv_start.
      * rewrite Hr. change (((t <=? t) && nondecreasing (t :: rest)) = true).
        rewrite Hclock. apply andb_true_iff. split; [lia | reflexivity].
  - intros env id ev st r live. subst r live.
    destruct (feature_mark_passing_inv env id ev st)
      as [[Herr Hst] | (f & out & _ & _ & _ & _ & _ & Heq)].
    + split; [|congruence]. intros _. rewrite Hst. auto.
    + rewrite Heq. split.
      * rewrite commit_passing_not_error. discriminate.
      * intros _. split; [apply commit_passing_timestamps|].
        eexists _, _. rewrite commit_passing_features, commit_passing_log.
        split; [apply lookup_insert_eq|]. split; reflexivity.
  - intros env id ev st Hrl. cbv zeta.
    pose proof (rate_limited_length _ _ Hrl) as Hlen.
    pose proof (rate_limited_response env id ev st Hrl) as Hresp.
    remember (kept (time_check env) (_mark_passing_timestamps st)) as live
      eqn:Hlive.
    destruct live as [|t0 live']; [simpl in Hlen; lia|].
    destruct (minimum_spec (t0 :: live') t0 ltac:(left)) as [Hin Hmin].
    exists (minimum (t0 :: live')),
           (wait_seconds (time_check env) (minimum (t0 :: live'))).
    split; [exact Hin|]. split; [exact Hmin|]. split; [exact Hresp|].
    apply wait_seconds_bounds.
    rewrite Hlive in Hin at 2. unfold kept in Hin.
    now apply list_elem_of_filter in Hin as [Hin _].
Qed.

End FeatureMcpFacts.

(* ===================================================================== *)
(** * Properties of the matching engine and of the redaction *)
(* ===================================================================== *)

Section RedactionFacts.
Import Text Re AgentPoolManager.

Lemma isspace_lower c : isspace (lower c) = isspace c.
Proof. destruct c as [[] [] [] [] [] [] [] []]; reflexivity. Qed.

Lemma isalnum_not_space c : isalnum_ascii c = true -> isspace c = false.
Proof.
  destruct c as [[] [] [] [] [] [] [] []]; vm_compute; intros; congruence.
Qed.

Lemma char_eq_isspace ic a b : char_eq ic a b = true -> isspace a = isspace b.
Proof.
  unfold char_eq. destruct ic; intros H%Ascii.eqb_eq.
  - rewrite <- (isspace_lower a), <- (isspace_lower b). now rewrite H.
  - now subst.
Qed.

Lemma class_rejects_space_spec ic k c :
  class_rejects_space k = true -> isspace c = true -> in_class ic k c = false.
Proof.
  intros Hk Hc. destruct k as [a| | | |cs]; simpl in *.
  - destruct (char_eq ic a c) eqn:E; [|reflexivity].
    apply char_eq_isspace in E. rewrite Hc in E. now rewrite E in Hk.
  - destruct (isalnum_ascii c) eqn:E; [|reflexivity].
    apply isalnum_not_space in E. congruence.
  - discriminate.
  - now rewrite Hc.
  - induction cs as [|a cs IH]; simpl in *; [reflexivity|].
    apply andb_true_iff in Hk as [Ha Hcs]. rewrite (IH Hcs), orb_false_r.
    destruct (char_eq ic a c) eqn:E; [|reflexivity].
    apply char_eq_isspace in E. rewrite Hc in E. now rewrite E in Ha.
Qed.

Lemma span_le_length ic k s : (span ic k s <= length s)%nat.
Proof.
  induction s as [|x s IH]; simpl; [lia|].
  destruct (in_class ic k x); simpl; lia.
Qed.

Lemma span_app_space ic k w c r :
  in_class ic k c = false -> span ic k (w ++ c :: r) = span ic k w.
Proof.
  intros Hc. induction w as [|x w IH]; simpl; [now rewrite Hc|].
  destruct (in_class ic k x); [now rewrite IH | reflexivity].
Qed.

Lemma greedy_counts_le lo hi n : n ∈ greedy_counts lo hi -> (n <= hi)%nat.
Proof.
  unfold greedy_counts. rewrite list_elem_of_In, <- in_rev, in_seq. lia.
Qed.

Lemma first_some_ext {A B} (f g : A -> option B) l :
  (forall a, a ∈ l -> f a = g a) -> first_some f l = first_some g l.
Proof.
  induction l as [|a l IH]; intros H; simpl; [reflexivity|].
  rewrite (H a) by left. rewrite IH; [reflexivity|].
  intros b Hb. apply H. now right.
Qed.

Lemma first_some_fmap {A B C} (h : B -> C) (f : A -> option B) l :
  first_some (fun a => h <$> f a) l = h <$> first_some f l.
Proof.
  induction l as [|a l IH]; simpl; [reflexivity|].
  destruct (f a); simpl; [reflexivity | exact IH].
Qed.

Lemma first_some_Some {A B} (f : A -> option B) l b :
  first_some f l = Some b -> exists a, a ∈ l /\ f a = Some b.
Proof.
  induction l as [|a l IH]; simpl; [discriminate|].
  destruct (f a) eqn:E.
  - intros [= <-]. exists a. split; [left | exact E].
  - intros H. destruct (IH H) as (a' & Ha' & Hf). exists a'.
    split; [now right | exact Hf].
Qed.

Lemma strip_literal_app_space ic a w c r :
  forallb (fun c => negb (isspace c)) a = true -> isspace c = true ->
  strip_literal ic a (w ++ c :: r)
  = (fun rest => rest ++ c :: r) <$> strip_literal ic a w.
Proof.
  intros Ha Hc. revert w. induction a as [|y a IH]; intros w; [reflexivity|].
  simpl in Ha. apply andb_true_iff in Ha as [Hy Ha].
  destruct w as [|x w]; simpl.
  - destruct (char_eq ic y c) eqn:E; [|reflexivity].
    apply char_eq_isspace in E. rewrite Hc in E. now rewrite E in Hy.
  - destruct (char_eq ic y x); [now apply IH | reflexivity].
Qed.

Lemma strip_literal_suffix ic a s r :
  strip_literal ic a s = Some r -> exists m, s = m ++ r.
Proof.
  revert s. induction a as [|y a IH]; intros s; simpl.
  - intros [= <-]. now exists [].
  - destruct s as [|x s]; [discriminate|].
    destruct (char_eq ic y x); [|discriminate].
    intros (m & ->)%IH. now exists (x :: m).
Qed.

(** What a pattern without white space matches does not depend on what
    follows the next white-space character. *)
Lemma match_here_app_space ic p : forall w c r,
  forallb atom_rejects_space p = true -> isspace c = true ->
  match_here ic p (w ++ c :: r)
  = (fun rest => rest ++ c :: r) <$> match_here ic p w.
Proof.
  induction p as [|a p IH]; intros w c r Hp Hc; [reflexivity|].
  simpl in Hp. apply andb_true_iff in Hp as [Ha Hp].
  destruct a as [k|k|k lo|alts]; simpl in Ha.
  - destruct w as [|x w]; simpl.
    + now rewrite (class_rejects_space_spec ic k c Ha Hc).
    + destruct (in_class ic k x); [now apply IH | reflexivity].
  - destruct w as [|x w]; simpl.
    + rewrite (class_rejects_space_spec ic k c Ha Hc).
      now apply (IH []).
    + destruct (in_class ic k x).
      * rewrite (IH w c r Hp Hc).
        destruct (match_here ic p w); simpl; [reflexivity|].
        now apply (IH (x :: w)).
      * now apply (IH (x :: w)).
  - cbn [match_here].
    rewrite span_app_space by now apply class_rejects_space_spec.
    rewrite <- first_some_fmap. apply first_some_ext.
    intros n Hn%greedy_counts_le.
    pose proof (span_le_length ic k w).
    rewrite drop_app_le by lia. now apply IH.
  - cbn [match_here]. rewrite <- first_some_fmap. apply first_some_ext.
    intros lit_ Hlit.
    rewrite strip_literal_app_space; [|  | exact Hc].
    + destruct (strip_literal ic lit_ w); simpl; [now apply IH | reflexivity].
    + rewrite forallb_forall in Ha. apply Ha. now apply list_elem_of_In.
Qed.

Lemma match_here_suffix ic p : forall s rest,
  match_here ic p s = Some rest -> exists m, s = m ++ rest.
Proof.
  induction p as [|a p IH]; intros s rest; simpl.
  - intros [= <-]. now exists [].
  - destruct a as [k|k|k lo|alts].
    + destruct s as [|x s]; [discriminate|].
      destruct (in_class ic k x); [|discriminate].
      intros (m & ->)%IH. now exists (x :: m).
    + destruct s as [|x s]; [apply IH|].
      destruct (in_class ic k x); [|apply IH].
      destruct (match_here ic p s) as [r|] eqn:E; [|apply IH].
      intros [= <-]. apply IH in E as (m & ->). now exists (x :: m).
    + intros (n & _ & (m & Hm)%IH)%first_some_Some.
      exists (take n s ++ m). now rewrite <- app_assoc, <- Hm, take_drop.
    + intros (a & _ & H)%first_some_Some.
      destruct (strip_literal ic a s) as [r|] eqn:E; [|discriminate].
      apply strip_literal_suffix in E as (m1 & ->).
      apply IH in H as (m2 & ->). exists (m1 ++ m2). now rewrite app_assoc.
Qed.

Lemma match_here_nonempty ic p s rest :
  starts_with_one p = true -> match_here ic p s = Some rest ->
  (length rest < length s)%nat.
Proof.
  destruct p as [|[k| | |] p]; try discriminate. intros _. simpl.
  destruct s as [|x s]; [discriminate|].
  destruct (in_class ic k x); [|discriminate].
  intros (m & ->)%match_here_suffix. simpl. rewrite length_app. lia.
Qed.

(** ** [re.sub] *)

Lemma sub_from_skip ic p repl : forall s k,
  sub_from ic p repl k s = sub ic p repl (drop k s).
Proof.
  induction s as [|x s IH]; intros [|k]; try reflexivity.
  simpl. apply IH.
Qed.

Lemma sub_nomatch ic p repl x s :
  match_here ic p (x :: s) = None ->
  sub ic p repl (x :: s) = x :: sub ic p repl s.
Proof. intros H. unfold sub. cbn [sub_from]. now rewrite H. Qed.

Lemma sub_match ic p repl s rest :
  starts_with_one p = true -> match_here ic p s = Some rest ->
  sub ic p repl s = repl ++ sub ic p repl rest.
Proof.
  intros Hp H. pose proof (match_here_nonempty _ _ _ _ Hp H) as Hlen.
  pose proof (match_here_suffix _ _ _ _ H) as (m & Hm).
  destruct s as [|x s]; [simpl in Hlen; lia|].
  destruct m as [|y m]; [simpl in Hm; subst rest; simpl in Hlen; lia|].
  injection Hm as <- ->.
  unfold sub at 1. cbn [sub_from]. rewrite H.
  replace (length (x :: m ++ rest) - length rest)%nat with (S (length m))
    by (simpl; rewrite length_app; lia).
  rewrite sub_from_skip. now rewrite drop_app_length.
Qed.

Lemma sub_nil ic p repl : sub ic p repl [] = [].
Proof. reflexivity. Qed.

(** Replacement by a pattern without white space works on each side of a
    white-space character independently. *)
Lemma sub_app_space ic p repl c r :
  word_pattern p = true -> isspace c = true ->
  forall w, sub ic p repl (w ++ c :: r)
            = sub ic p repl w ++ c :: sub ic p repl r.
Proof.
  intros [Hone Hws]%andb_true_iff Hc w.
  remember (length w) as n eqn:Hn. revert w Hn.
  induction n as [n IH] using lt_wf_ind. intros w ->.
  destruct w as [|x w].
  - simpl. rewrite sub_nomatch; [reflexivity|].
    pose proof (match_here_app_space ic p [] c r Hws Hc) as Hm.
    simpl in Hm. rewrite Hm.
    destruct p as [|[k| | |] p]; try discriminate. reflexivity.
  - pose proof (match_here_app_space ic p (x :: w) c r Hws Hc) as Hm.
    destruct (match_here ic p (x :: w)) as [rest|] eqn:E; simpl in Hm.
    + rewrite (sub_match _ _ _ _ _ Hone Hm), (sub_match _ _ _ _ _ Hone E).
      pose proof (match_here_nonempty _ _ _ _ Hone E) as Hlen.
      rewrite (IH (length rest) Hlen rest eq_refl).
      now rewrite app_assoc.
    + change ((x :: w) ++ c :: r) with (x :: (w ++ c :: r)) in *.
      rewrite (sub_nomatch _ _ _ _ _ Hm), (sub_nomatch _ _ _ _ _ E).
      rewrite (IH (length w) ltac:(simpl; lia) w eq_refl). reflexivity.
Qed.

Lemma fold_sub_app_space ic repl c ps :
  forallb word_pattern ps = true -> isspace c = true ->
  forall w1 w2,
    fold_left (fun line p => sub ic p repl line) ps (w1 ++ c :: w2)
    = fold_left (fun line p => sub ic p repl line) ps w1
      ++ c :: fold_left (fun line p => sub ic p repl line) ps w2.
Proof.
  intros Hps Hc. induction ps as [|p ps IH]; intros w1 w2; [reflexivity|].
  simpl in Hps. apply andb_true_iff in Hps as [Hp Hps]. simpl.
  rewrite (sub_app_space ic p repl c w2 Hp Hc). now apply IH.
Qed.

Lemma sensitive_patterns_are_words :
  forallb word_pattern SENSITIVE_PATTERNS = true.
Proof. vm_compute. reflexivity. Qed.

Lemma sanitize_chars_app_space w1 c w2 :
  isspace c = true ->
  sanitize_chars (w1 ++ c :: w2)
  = sanitize_chars w1 ++ c :: sanitize_chars w2.
Proof.
  intros Hc. unfold sanitize_chars.
  now apply fold_sub_app_space; [apply sensitive_patterns_are_words|].
Qed.

Lemma sanitize_chars_nil : sanitize_chars [] = [].
Proof. reflexivity. Qed.

(** ** The API key as a word of the line *)

Lemma sanitize_chars_after w q :
  match q with [] => true | c :: _ => isspace c end = true ->
  sanitize_chars (w ++ q) = sanitize_chars w ++ sanitize_chars q.
Proof.
  destruct q as [|c q]; intros Hq.
  - now rewrite sanitize_chars_nil, !app_nil_r.
  - rewrite sanitize_chars_app_space by assumption.
    pose proof (sanitize_chars_app_space [] c q Hq) as H0.
    simpl in H0. now rewrite H0.
Qed.

Lemma sanitize_chars_before p w :
  match rev p with [] => true | c :: _ => isspace c end = true ->
  sanitize_chars (p ++ w) = sanitize_chars p ++ sanitize_chars w.
Proof.
  destruct (rev p) as [|c p'] eqn:Hp; intros Hc.
  - apply (f_equal (@rev ascii)) in Hp. rewrite rev_involutive in Hp.
    now subst p.
  - apply (f_equal (@rev ascii)) in Hp. rewrite rev_involutive in Hp.
    simpl in Hp. subst p. rewrite <- app_assoc. simpl.
    rewrite !sanitize_chars_app_space by assumption.
    now rewrite sanitize_chars_nil, <- app_assoc.
Qed.

Lemma sanitize_secret : sanitize_chars (chars SECRET) = REDACTED.
Proof. vm_compute. reflexivity. Qed.

Lemma sanitize_output_word before after :
  ends_at_boundary before = true -> starts_at_boundary after = true ->
  sanitize_output (before +:+ SECRET +:+ after)
  = sanitize_output before +:+ "[REDACTED]" +:+ sanitize_output after.
Proof.
  unfold ends_at_boundary, starts_at_boundary, sanitize_output.
  intros Hb Ha. rewrite !chars_app.
  rewrite sanitize_chars_before by assumption.
  rewrite sanitize_chars_after by assumption.
  rewrite sanitize_secret, !text_app. reflexivity.
Qed.

Lemma lstrip_chars_app a y b :
  isspace y = false ->
  lstrip_chars (a ++ y :: b) = lstrip_chars a ++ y :: b.
Proof.
  intros Hy. induction a as [|x a IH]; simpl; [now rewrite Hy|].
  destruct (isspace x); [exact IH | reflexivity].
Qed.

Lemma lstrip_chars_suffix l : exists t, l = t ++ lstrip_chars l.
Proof.
  induction l as [|x l [t IH]]; simpl; [now exists []|].
  destruct (isspace x); [|now exists []].
  exists (x :: t). simpl. now rewrite <- IH.
Qed.

Lemma rstrip_chars_app a b y :
  isspace y = false ->
  rstrip_chars ((a ++ [y]) ++ b) = (a ++ [y]) ++ rstrip_chars b.
Proof.
  intros Hy. unfold rstrip_chars.
  rewrite !rev_app_distr. simpl.
  rewrite lstrip_chars_app by assumption.
  rewrite rev_app_distr. simpl. rewrite rev_involutive.
  now rewrite <- app_assoc.
Qed.

Lemma rstrip_starts_at_boundary after :
  starts_at_boundary after = true ->
  starts_at_boundary (rstrip after) = true.
Proof.
  unfold starts_at_boundary, rstrip. rewrite chars_text.
  unfold rstrip_chars.
  destruct (lstrip_chars_suffix (rev (chars after))) as [t Ht].
  apply (f_equal (@rev ascii)) in Ht.
  rewrite rev_involutive, rev_app_distr in Ht.
  destruct (rev (lstrip_chars (rev (chars after)))) as [|c l]; [reflexivity|].
  now rewrite Ht.
Qed.

Lemma rstrip_around_secret before after :
  rstrip (before +:+ SECRET +:+ after) = before +:+ SECRET +:+ rstrip after.
Proof.
  unfold rstrip. rewrite !chars_app.
  replace (chars before ++ chars SECRET ++ chars after)
    with (((chars before ++ chars "ANTHROPIC_API_KEY=abc12") ++ ["3"%char])
            ++ chars after)
    by (rewrite <- !app_assoc; reflexivity).
  rewrite rstrip_chars_app by reflexivity.
  rewrite <- !app_assoc.
  change (text (chars before ++ chars SECRET ++ rstrip_chars (chars after))
          = before +:+ SECRET +:+ text (rstrip_chars (chars after))).
  now rewrite !text_app, !text_chars.
Qed.

Lemma stream_line_last is_auth_error help st line :
  last (fst (stream_line is_auth_error help st line))
  = Some (sanitize_output (rstrip line)).
Proof.
  unfold stream_line.
  destruct (negb (auth_error_detected st) && is_auth_error (rstrip line));
    simpl; [apply last_snoc | reflexivity].
Qed.

(** With no authentication error in sight, the lines are broadcast
    sanitized, one for one and in the order of their arrival. *)
Lemma stream_lines_in_order help lines : forall st,
  fst (stream_lines (fun _ => false) help st lines)
  = (fun line => sanitize_output (rstrip line)) <$> lines.
Proof.
  induction lines as [|line lines IH]; intros st; [reflexivity|].
  cbn [stream_lines]. unfold stream_line at 1.
  rewrite andb_false_r.
  match goal with
  | |- context [stream_lines _ _ ?st' lines] =>
      specialize (IH st'); destruct (stream_lines (fun _ => false) help st' lines)
  end.
  simpl in *. now rewrite IH.
Qed.

(** C3 (amended).  For every agent output line in which
    [ANTHROPIC_API_KEY=abc123] stands as a word (the text before it is
    empty or ends with white space, the text after it is empty or starts
    with white space), the sanitized line broadcast to the observers
    renders that word as the literal [[REDACTED]]: the variable name goes
    with the value, and the text on either side is sanitized on its own. *)
Theorem api_key_word_is_redacted_whole before after :
  ends_at_boundary before = true ->
  starts_at_boundary after = true ->
  sanitize_output (before +:+ SECRET +:+ after)
  = sanitize_output before +:+ "[REDACTED]" +:+ sanitize_output after
  /\ forall is_auth_error help st,
       last (fst (stream_line is_auth_error help st
                              (before +:+ SECRET +:+ after)))
       = Some (sanitize_output before +:+ "[REDACTED]"
               +:+ sanitize_output (rstrip after)).
Proof.
  intros Hb Ha. split; [now apply sanitize_output_word|].
  intros is_auth_error help st.
  rewrite stream_line_last, rstrip_around_secret.
  f_equal. apply sanitize_output_word; [exact Hb|].
  now apply rstrip_starts_at_boundary.
Qed.

End RedactionFacts.

(* ===================================================================== *)
(** * Properties of the command validation *)
(* ===================================================================== *)

Section ValidationFacts.
Import Text Re ServerTasks.
Variable shlex_split : string -> option (list string).

Lemma strip_literal_shorter a s r :
  a <> [] -> strip_literal false a s = Some r -> (length r < length s)%nat.
Proof.
  destruct a as [|y a]; [congruence|]. intros _.
  destruct s as [|x s]; [discriminate|]. cbn [strip_literal].
  destruct (char_eq false y x); [|discriminate].
  intros (m & ->)%strip_literal_suffix. simpl. rewrite length_app. lia.
Qed.

(** A separator is never empty: the branch of [split_from] for an empty
    match is not taken. *)
Lemma separator_is_not_empty s rest :
  match_here false SEPARATORS s = Some rest -> (length rest < length s)%nat.
Proof.
  unfold SEPARATORS. cbn [match_here].
  intros (n & _ & (a & Ha & H)%first_some_Some)%first_some_Some.
  destruct (strip_literal false a (drop n s)) as [r|] eqn:E; [|discriminate].
  apply strip_literal_shorter in E.
  - apply (match_here_suffix false [Rep Space 0]) in H as (m & ->).
    rewrite length_app, length_drop in E. lia.
  - intros ->. repeat (apply elem_of_cons in Ha as [Ha | Ha]; [discriminate|]).
    inversion Ha.
Qed.

Lemma extract_loop_commands_of segs : forall commands,
  extract_loop shlex_split commands segs
  = match commands_of shlex_split (strip_chars <$> segs) with
    | Some l => commands ++ l
    | None => []
    end.
Proof.
  induction segs as [|segment segs IH]; intros commands.
  - simpl. now rewrite app_nil_r.
  - rewrite fmap_cons. cbn [extract_loop commands_of]. unfold is_command.
    destruct (is_empty (strip_chars segment)); cbn [negb andb]; [apply IH|].
    destruct (is_cd (strip_chars segment)); cbn [negb andb]; [apply IH|].
    destruct (shlex_split (text (strip_chars segment))) as [[|cmd tokens]|];
      [apply IH | | reflexivity].
    rewrite IH.
    destruct (commands_of shlex_split (strip_chars <$> segs)); simpl;
      [now rewrite <- app_assoc | reflexivity].
Qed.

Lemma commands_of_Some segs l :
  commands_of shlex_split segs = Some l ->
  (forall segment, segment ∈ segs -> is_command segment = true ->
                   exists tokens, shlex_split (text segment) = Some tokens
                                  /\ forall cmd rest, tokens = cmd :: rest ->
                                                      basename cmd ∈ l)
  /\ (forall c, c ∈ l ->
                exists segment cmd rest,
                  segment ∈ segs /\ is_command segment = true
                  /\ shlex_split (text segment) = Some (cmd :: rest)
                  /\ c = basename cmd).
Proof.
  revert l. induction segs as [|segment segs IH]; intros l; simpl.
  - intros [= <-]. split; [intros ? H; inversion H | intros ? H; inversion H].
  - destruct (is_command segment) eqn:Hcmd.
    + destruct (shlex_split (text segment)) as [[|cmd tokens]|] eqn:Hsplit;
        [| |discriminate].
      * intros [H1 H2]%IH. split.
        -- intros seg [-> | Hin]%elem_of_cons Hc; [|auto].
           exists []. split; [exact Hsplit | discriminate].
        -- intros c (seg & cmd & rest & Hin & H)%H2.
           exists seg, cmd, rest. split; [now right | exact H].
      * destruct (commands_of shlex_split segs) as [l'|]; [|discriminate].
        intros [= <-]. destruct (IH l' eq_refl) as [H1 H2]. split.
        -- intros seg [-> | Hin]%elem_of_cons Hc.
           ++ exists (cmd :: tokens). split; [exact Hsplit|].
              intros ? ? [= <- <-]. left.
           ++ destruct (H1 seg Hin Hc) as (toks & Hs & Hall).
              exists toks. split; [exact Hs|].
              intros c r Hcr. right. eauto.
        -- intros c [-> | Hin]%elem_of_cons.
           ++ exists segment, cmd, tokens. repeat split; auto. left.
           ++ destruct (H2 c Hin) as (seg & cmd' & rest & Hseg & H).
              exists seg, cmd', rest. split; [now right | exact H].
    + intros [H1 H2]%IH. split.
      * intros seg [-> | Hin]%elem_of_cons Hc; [congruence | auto].
      * intros c (seg & cmd & rest & Hin & H)%H2.
        exists seg, cmd, rest. split; [now right | exact H].
Qed.

Lemma commands_of_None segs :
  commands_of shlex_split segs = None ->
  exists segment, segment ∈ segs /\ is_command segment = true
                  /\ shlex_split (text segment) = None.
Proof.
  induction segs as [|segment segs IH]; simpl; [discriminate|].
  destruct (is_command segment) eqn:Hcmd.
  - destruct (shlex_split (text segment)) as [[|cmd tokens]|] eqn:Hsplit.
    + intros (seg & Hin & H)%IH. exists seg. split; [now right | exact H].
    + destruct (commands_of shlex_split segs); [discriminate|].
      intros _. destruct (IH eq_refl) as (seg & Hin & H).
      exists seg. split; [now right | exact H].
    + intros _. exists segment. split; [left | auto].
  - intros (seg & Hin & H)%IH. exists seg. split; [now right | exact H].
Qed.

Lemma command_segments_elem s segment :
  segment ∈ command_segments s
  <-> segment ∈ stripped_segments s /\ is_command segment = true.
Proof. unfold command_segments. rewrite list_elem_of_filter. tauto. Qed.

Lemma find_disallowed_None l :
  find (fun cmd => negb (allowed cmd)) l = None
  <-> forall c, c ∈ l -> allowed c = true.
Proof.
  induction l as [|c l IH]; simpl.
  - split; [intros _ ? H; inversion H | reflexivity].
  - destruct (allowed c) eqn:Hc; simpl.
    + rewrite IH. split.
      * intros H x [-> | Hx]%elem_of_cons; auto.
      * intros H x Hx. apply H. now right.
    + split; [discriminate|]. intros H.
      specialize (H c ltac:(left)). congruence.
Qed.

Lemma validate_command_cases s :
  validate_command shlex_split s
  = if blank s then (false, "Empty command")
    else match commands_of shlex_split (stripped_segments s) with
         | None | Some [] => (false, "Could not parse command")
         | Some (c :: l) =>
             match find (fun cmd => negb (allowed cmd)) (c :: l) with
             | Some cmd => (false, "Command '" +:+ cmd +:+ "' is not allowed")
             | None => (true, EmptyString)
             end
         end.
Proof.
  unfold validate_command, blank.
  destruct (is_empty (chars s) || is_empty (strip_chars (chars s)));
    [reflexivity|].
  unfold extract_commands_from_string, stripped_segments.
  rewrite extract_loop_commands_of. simpl.
  destruct (commands_of shlex_split (strip_chars <$> segments s))
    as [[|c l]|]; reflexivity.
Qed.

(** C8 (amended).  [validate_command] accepts a command string if and
    only if the string is not blank, every non-empty segment between the
    separators that does not start with ["cd "] tokenizes under shell-word
    semantics into a list whose first token, if any, is in the allow-list
    once its directory prefix is stripped, and at least one such segment
    yields a first token. *)
Theorem validate_command_accepts_iff s :
  accepts shlex_split s = true <-> accepts_by_code shlex_split s.
Proof.
  unfold accepts, accepts_by_code. rewrite validate_command_cases.
  destruct (blank s);
    [cbn [fst]; split; [discriminate | intros [? _]; discriminate]|].
  destruct (commands_of shlex_split (stripped_segments s)) as [l|] eqn:Hl.
  - destruct (commands_of_Some _ _ Hl) as [H1 H2].
    destruct l as [|c l].
    + cbn [fst]. split; [discriminate|].
      intros (_ & _ & seg & cmd & rest & Hin & Hs).
      apply command_segments_elem in Hin as [Hin Hc].
      destruct (H1 seg Hin Hc) as (toks & Hs' & Hall).
      rewrite Hs in Hs'. injection Hs' as <-.
      specialize (Hall cmd rest eq_refl). inversion Hall.
    + destruct (find (fun cmd => negb (allowed cmd)) (c :: l)) as [bad|] eqn:Hf;
        cbn [fst].
      * split; [discriminate|]. intros (_ & Hall & _). exfalso.
        apply find_some in Hf as [Hin Hbad].
        apply list_elem_of_In in Hin.
        destruct (H2 bad Hin) as (seg & cmd & rest & Hseg & Hc & Hs & ->).
        destruct (Hall seg) as (toks & Hs' & Hok);
          [now apply command_segments_elem|].
        rewrite Hs in Hs'. injection Hs' as <-.
        rewrite (Hok cmd rest eq_refl) in Hbad. discriminate.
      * split; [intros _ | reflexivity]. split; [reflexivity|]. split.
        -- intros seg [Hin Hc]%command_segments_elem.
           destruct (H1 seg Hin Hc) as (toks & Hs & Hmem).
           exists toks. split; [exact Hs|]. intros cmd rest Heq.
           eapply find_disallowed_None; [exact Hf | eauto].
        -- destruct (H2 c ltac:(left)) as (seg & cmd & rest & Hin & Hc & Hs & _).
           exists seg, cmd, rest.
           split; [now apply command_segments_elem | exact Hs].
  - cbn [fst]. split; [discriminate|]. intros (_ & Hall & _). exfalso.
    apply commands_of_None in Hl as (seg & Hin & Hc & Hs).
    destruct (Hall seg) as (toks & Hs' & _);
      [now apply command_segments_elem | congruence].
Qed.

Lemma commands_of_all_cd segs :
  forallb is_cd segs = true -> commands_of shlex_split segs = Some [].
Proof.
  induction segs as [|segment segs IH]; simpl; [reflexivity|].
  intros [Hcd Hrest]%andb_true_iff. unfold is_command.
  rewrite Hcd, andb_false_r. now apply IH.
Qed.

(** C10.  A command string that is not blank and all of whose segments,
    once stripped, begin with ["cd "] (["cd ui"] for one) is rejected by
    [validate_command] with the error ["Could not parse command"],
    although the extraction passes over each such segment as safe. *)
Theorem only_cd_segments_could_not_parse s :
  blank s = false ->
  forallb is_cd (stripped_segments s) = true ->
  validate_command shlex_split s = (false, "Could not parse command")
  /\ extract_commands_from_string shlex_split s = [].
Proof.
  intros Hb Hcd. rewrite validate_command_cases.
  unfold blank in Hb. unfold blank. rewrite Hb.
  rewrite (commands_of_all_cd _ Hcd). split; [reflexivity|].
  unfold extract_commands_from_string. rewrite extract_loop_commands_of.
  fold (stripped_segments s). now rewrite (commands_of_all_cd _ Hcd).
Qed.

End ValidationFacts.

(* ===================================================================== *)
(** * The scenarios, checked *)
(* ===================================================================== *)

Section ScenarioFacts.
Import Text Json FeatureMcp AgentPoolManager ServerTasks Scenarios.

(** S1: create, claim, mark passing: one audit row, one backup file. *)
Example s1_happy_path :
  let run := calls [ CallCreate "A" "N" "D" ["s"];
                     CallMarkInProgress 1;
                     CallMarkPassing (world 1000 quiet) 1 evidence60 ] initial in
  (is_error <$> fst run) = [false; false; false]
  /\ (passes <$> features (snd run) !! 1) = Some true
  /\ (in_progress <$> features (snd run) !! 1) = Some false
  /\ length (status_change_log (snd run)) = 1%nat
  /\ length (backups (snd run)) = 1%nat.
Proof. vm_compute. repeat split; reflexivity. Qed.

(** S2 and S3: evidence too short; feature never claimed. *)
Example s2_evidence_too_short :
  let r := feature_mark_passing (world 1000 quiet) 1 "short" stuck_state in
  (exists msg, get "error" (fst r) = Some (JStr msg)
               /\ contains msg "at least 50" = true)
  /\ features (snd r) = features stuck_state.
Proof.
  cbv zeta. split; [eexists; split; vm_compute; reflexivity|].
  vm_compute. reflexivity.
Qed.

Example s3_not_in_progress :
  let r := feature_mark_passing (world 1000 quiet) 1 evidence60 s1_state in
  (exists msg, get "error" (fst r) = Some (JStr msg)
               /\ contains msg "NOT in-progress" = true)
  /\ features (snd r) = features s1_state.
Proof.
  cbv zeta. split; [eexists; split; vm_compute; reflexivity|].
  vm_compute. reflexivity.
Qed.

(** S5: the fourth call within the minute is turned down. *)
Example s5_fourth_call_is_rate_limited :
  (is_error <$> fst (calls s5_calls s5_state)) = [false; false; false; true]
  /\ get "error" (fst (feature_mark_passing (world 1030 quiet) 4 evidence60
                         (snd (calls (take 3 s5_calls) s5_state))))
     = Some (JStr ("Rate limit: max 3 features per 5 minutes. Wait 271s. "
                   +:+ "This prevents mass-marking without proper verification.")).
Proof. vm_compute. split; reflexivity. Qed.

(** C2, as stated, fails: releasing a feature that was in progress
    appends no row to the audit log. *)
Lemma clear_in_progress_appends_no_row :
  (in_progress <$> features stuck_state !! 1) = Some true
  /\ (in_progress <$> features (snd (feature_clear_in_progress 1 stuck_state)) !! 1)
     = Some false
  /\ status_change_log (snd (feature_clear_in_progress 1 stuck_state)) = []
  /\ ~ exists row,
         status_change_log (snd (feature_clear_in_progress 1 stuck_state))
         = status_change_log stuck_state ++ [row].
Proof.
  split; [vm_compute; reflexivity|]. split; [vm_compute; reflexivity|].
  split; [vm_compute; reflexivity|].
  intros [row H]. vm_compute in H. discriminate.
Qed.

(** C3, as stated, fails: the line of S8 is broadcast as [[REDACTED]]
    alone, without the name of the variable. *)
Lemma api_key_line_loses_variable_name :
  contains s8_line "ANTHROPIC_API_KEY=abc123" = true
  /\ sanitize_output s8_line = "[REDACTED]"
  /\ fst (stream_line (fun _ => false) [] stream_init s8_line) = ["[REDACTED]"]
  /\ contains (sanitize_output s8_line) "ANTHROPIC_API_KEY=[REDACTED]" = false.
Proof. vm_compute. repeat split; reflexivity. Qed.

(** Away from a word boundary the neighbours decide: here the first
    pattern takes the start of the variable name with the run that
    precedes it, and the third pattern takes the rest. *)
Example api_key_glued_to_a_token :
  sanitize_output "sk-aaaaaaaaaaaANTHROPIC_API_KEY=abc123"
  = "[REDACTED]_[REDACTED]".
Proof. vm_compute. reflexivity. Qed.

(** C9, as stated, fails: with non-ASCII output the committed row holds
    1000 characters of each stream, which are 2000 bytes each. *)
Lemma committed_output_exceeds_1000_bytes :
  let result := feature_mark_passing accents_world 1 evidence60 accents_state in
  is_error (fst result) = false
  /\ exists row out,
       status_change_log (snd result) = [row]
       /\ verification_output row = Some out
       /\ utf8_len out = 4000%nat
       /\ ~ exists tail_out tail_err,
              out = tail_out +:+ tail_err
              /\ (utf8_len tail_out <= 1000)%nat
              /\ (utf8_len tail_err <= 1000)%nat.
Proof.
  cbv zeta. split; [vm_compute; reflexivity|].
  eexists _, (accents +:+ accents).
  split; [vm_compute; reflexivity|]. split; [vm_compute; reflexivity|].
  assert (Hlen : utf8_len (accents +:+ accents) = 4000%nat)
    by (vm_compute; reflexivity).
  split; [exact Hlen|].
  intros (a & b & Heq & Ha & Hb).
  rewrite Heq, utf8_len_app in Hlen. lia.
Qed.

(** C8, as stated, fails: ["cd ui"] meets the condition of the
    specification, no segment being left to tokenize, and is rejected. *)
Lemma cd_alone_meets_spec_but_is_rejected :
  accepts_by_spec Shlex.split "cd ui"
  /\ accepts Shlex.split "cd ui" = false
  /\ validate_command Shlex.split "cd ui" = (false, "Could not parse command").
Proof.
  split; [|split; vm_compute; reflexivity].
  split; [vm_compute; reflexivity|].
  intros segment Hin Hcd. exfalso.
  assert (Hsegs : stripped_segments "cd ui" = [chars "cd ui"])
    by (vm_compute; reflexivity).
  rewrite Hsegs in Hin. apply list_elem_of_singleton in Hin. subst segment.
  vm_compute in Hcd. discriminate.
Qed.

(** ** The theorems at work on the scenarios *)

Lemma mark_passing_rejected_no_mutation_s4 :
  rejected s4_world 1 evidence60 s4_state
  /\ is_error (fst (feature_mark_passing s4_world 1 evidence60 s4_state)) = true
  /\ features (snd (feature_mark_passing s4_world 1 evidence60 s4_state))
     = features s4_state
  /\ status_change_log (snd (feature_mark_passing s4_world 1 evidence60 s4_state))
     = status_change_log s4_state.
Proof.
  assert (H : rejected s4_world 1 evidence60 s4_state).
  { do 4 right. exists (claimed 1 "N" (Some "exit 1")).
    split; [vm_compute; reflexivity|].
    exists "exit 1". split; [reflexivity|]. split; [reflexivity|].
    right. exists 1, EmptyString, "boom". split; [reflexivity | lia]. }
  split; [exact H | exact (mark_passing_rejected_no_mutation _ _ _ _ H)].
Defined.

Lemma clear_in_progress_on_stuck_feature :
  features stuck_state !! 1 = Some (claimed 1 "N" None)
  /\ features (snd (feature_clear_in_progress 1 stuck_state))
     = <[1 := set_in_progress false (claimed 1 "N" None)]> (features stuck_state)
  /\ status_change_log (snd (feature_clear_in_progress 1 stuck_state))
     = status_change_log stuck_state.
Proof.
  assert (H : features stuck_state !! 1 = Some (claimed 1 "N" None))
    by (vm_compute; reflexivity).
  split; [exact H|].
  pose proof (clear_in_progress_sets_false_without_log 1 _ stuck_state H)
    as (_ & H1 & _ & H2).
  split; [exact H1 | exact H2].
Defined.

Lemma api_key_word_in_an_export_line :
  ends_at_boundary "export " = true
  /\ starts_at_boundary " now" = true
  /\ sanitize_output ("export " +:+ SECRET +:+ " now")
     = sanitize_output "export " +:+ "[REDACTED]" +:+ sanitize_output " now".
Proof.
  split; [reflexivity|]. split; [reflexivity|].
  exact (proj1 (api_key_word_is_redacted_whole "export " " now"
                  eq_refl eq_refl)).
Defined.

Lemma rate_limit_on_s5 :
  _mark_passing_timestamps s5_state = []
  /\ nondecreasing (clock_readings s5_calls s5_state) = true
  /\ forall w, (successes_within w (successes s5_calls s5_state) <= 3)%nat.
Proof.
  assert (H1 : _mark_passing_timestamps s5_state = []) by reflexivity.
  assert (H2 : nondecreasing (clock_readings s5_calls s5_state) = true)
    by (vm_compute; reflexivity).
  split; [exact H1|]. split; [exact H2|].
  exact (proj1 (rate_limit_three_per_window s5_calls s5_state H1 H2)).
Defined.

Lemma invariant_kept_by_mark_passing :
  passes_implies_not_in_progress stuck_state
  /\ passes_implies_not_in_progress
       (snd (call (CallMarkPassing (world 1000 quiet) 1 evidence60)
                  stuck_state)).
Proof.
  assert (H : passes_implies_not_in_progress stuck_state).
  { intros id f Hf Hp. unfold stuck_state in Hf. cbn [features store] in Hf.
    apply lookup_singleton_Some in Hf as [_ <-]. discriminate Hp. }
  split; [exact H|].
  exact (operations_preserve_passes_not_in_progress _ _ H).
Defined.

Lemma skip_on_s6 :
  features s6_state !! 1 = Some (pending 1 "one")
  /\ (priority <$> features (snd (feature_skip 1 s6_state)) !! 1) = Some 4
  /\ feature_get_next (snd (feature_skip 1 s6_state))
     = to_dict 2 (pending 2 "two").
Proof.
  assert (H : features s6_state !! 1 = Some (pending 1 "one"))
    by (vm_compute; reflexivity).
  split; [exact H|].
  pose proof (skip_moves_feature_to_tail 1 _ s6_state H) as (_ & _ & H3).
  apply (H3 2 3 (pending 2 "two") (pending 3 "three"));
    first [lia | reflexivity].
Defined.

Lemma mark_then_clear_on_s1 :
  features s1_state !! 1 = Some (pending 1 "N")
  /\ passes (pending 1 "N") = false
  /\ in_progress (pending 1 "N") = false
  /\ snd (feature_clear_in_progress 1
            (snd (feature_mark_in_progress 1 s1_state))) = s1_state.
Proof.
  assert (H : features s1_state !! 1 = Some (pending 1 "N"))
    by (vm_compute; reflexivity).
  split; [exact H|]. split; [reflexivity|]. split; [reflexivity|].
  exact (proj1 (proj2 (proj2
           (mark_then_clear_in_progress_roundtrip 1 _ s1_state H
              eq_refl eq_refl)))).
Defined.

Lemma git_status_is_accepted :
  accepts Shlex.split "git status" = true
  /\ accepts_by_code Shlex.split "git status".
Proof.
  assert (H : accepts Shlex.split "git status" = true)
    by (vm_compute; reflexivity).
  split; [exact H|].
  exact (proj1 (validate_command_accepts_iff Shlex.split "git status") H).
Defined.

Lemma committed_row_of_a_checked_feature :
  is_error (fst (feature_mark_passing (world 1000 (Completed 0 "ok" "warn"))
                   1 evidence60 accents_state)) = false
  /\ exists row,
       status_change_log
         (snd (feature_mark_passing (world 1000 (Completed 0 "ok" "warn"))
                 1 evidence60 accents_state))
       = status_change_log accents_state ++ [row].
Proof.
  assert (H : is_error (fst (feature_mark_passing
                               (world 1000 (Completed 0 "ok" "warn"))
                               1 evidence60 accents_state)) = false)
    by (vm_compute; reflexivity).
  split; [exact H|].
  destruct (committed_output_at_most_1000_chars_per_stream _ _ _ _ H)
    as (f & row & _ & Hlog & _).
  exists row. exact Hlog.
Defined.

Lemma cd_ui_could_not_parse :
  blank "cd ui" = false
  /\ forallb is_cd (stripped_segments "cd ui") = true
  /\ validate_command Shlex.split "cd ui" = (false, "Could not parse command").
Proof.
  assert (H1 : blank "cd ui" = false) by (vm_compute; reflexivity).
  assert (H2 : forallb is_cd (stripped_segments "cd ui") = true)
    by (vm_compute; reflexivity).
  split; [exact H1|]. split; [exact H2|].
  exact (proj1 (only_cd_segments_could_not_parse Shlex.split "cd ui" H1 H2)).
Defined.

(** The loop passes over an empty segment, which has no first token. *)
Example trailing_separator_is_accepted :
  accepts Shlex.split "ls ;" = true
  /\ stripped_segments "ls ;" = [chars "ls"; []]
  /\ Shlex.split EmptyString = Some [].
Proof. vm_compute. repeat split; reflexivity. Qed.

(** A lone [cd] followed by white space is not a [cd] segment once
    stripped, and [cd] is not in the allow-list. *)
Example bare_cd_is_not_allowed :
  validate_command Shlex.split "cd "
  = (false, "Command 'cd' is not allowed").
Proof. vm_compute. reflexivity. Qed.

(** The separators split inside quotation marks too; the pieces then fail
    to tokenize. *)
Example separator_inside_quotes :
  validate_command Shlex.split "echo 'a;b'"
  = (false, "Could not parse command").
Proof. vm_compute. reflexivity. Qed.

End ScenarioFacts.
